(** * Validation-report pipeline of the glTF viewer

    A shallow embedding of [ValidationController] (validation controller of
    the viewer): asset resolution, the validation run, report normalisation
    (generator identification, severity bucketing, partitioning, error
    aggregation) and the report presenter.

    Conventions.
    - JavaScript strings are [string]; numbers that count things are [nat],
      numbers read from the validator are [Z].
    - An object literal used as a dictionary ([CODES], [pointerCounts]) is an
      insertion-ordered association list: [Object.keys] enumerates string
      keys in creation order.  The keys stored there are validator codes and
      JSON pointers, which are neither array indices nor names inherited
      from [Object.prototype], so own-property lookup describes them.
    - A [Map] ([assetMap]) and the table of live object URLs are [gmap]s.
    - A promise chain is a computation in a state-and-error monad over the
      browser state: [.then] is bind, a rejection skips the remaining
      [.then] handlers and keeps the state reached so far. *)

From Stdlib Require Import ZArith Lia List Ascii String DecimalString DecimalNat
  Permutation.
From stdpp Require Import gmap strings list.
Import ListNotations.

Local Open Scope string_scope.
Local Open Scope list_scope.

(** ** JavaScript string primitives used by the controller *)

Module JsString.

(** [s.substr(n)] for [n <= s.length]. *)
Fixpoint drop (n : nat) (s : string) : string :=
  match n, s with
  | O, _ => s
  | S _, EmptyString => EmptyString
  | S n', String _ s' => drop n' s'
  end.

(** [s.startsWith(p)]. *)
Definition startsWith (p s : string) : bool := String.prefix p s.

(** [s.replace(pat, rep)] for a string pattern [pat] and a replacement
    without dollar patterns: the first occurrence of [pat] is replaced. *)
Fixpoint replace (pat rep s : string) : string :=
  if startsWith pat s then String.append rep (drop (String.length pat) s)
  else match s with
       | EmptyString => EmptyString
       | String c s' => String c (replace pat rep s')
       end.

(** [s.replace(/^(\.?\/)/, '')]: one leading "./" or "/" is removed. *)
Definition strip_leading_slash (s : string) : string :=
  if startsWith "./" s then drop 2 s
  else if startsWith "/" s then drop 1 s
  else s.

(** [s.indexOf(c) === -1] for a one-character [c]. *)
Fixpoint lacks (c : ascii) (s : string) : bool :=
  match s with
  | EmptyString => true
  | String d s' => if Ascii.eqb c d then false else lacks c s'
  end.

(** [String(n)] for a natural number. *)
Definition of_nat (n : nat) : string :=
  NilEmpty.string_of_uint (Nat.to_uint n).

(** [String(x)] for a count read from an object: [None] is [undefined]. *)
Definition of_count (x : option nat) : string :=
  match x with
  | Some n => of_nat n
  | None => "undefined"
  end.

End JsString.

(** ** Data model *)

(** A validator message.  The messages of the validator carry a severity;
    the synthetic messages built by [groupMessages] are object literals with
    [code], [pointer] and [message] only, hence the optional field. *)
Record Message := mkMessage {
  code : string;
  pointer : string;
  severity : option Z;
  message : string
}.

(** ** Objects used as dictionaries *)

Module Dict.
Section Dict.
Context {V : Type}.

(** [o[k]]: [None] is [undefined]. *)
Fixpoint get (k : string) (o : list (string * V)) : option V :=
  match o with
  | [] => None
  | (k', v) :: o' => if String.eqb k k' then Some v else get k o'
  end.

(** [o[k] = v]: an existing property keeps its place, a new one is
    created after the others. *)
Fixpoint set (k : string) (v : V) (o : list (string * V)) : list (string * V) :=
  match o with
  | [] => [(k, v)]
  | (k', v') :: o' =>
      if String.eqb k k' then (k', v) :: o' else (k', v') :: set k v o'
  end.

(** [Object.keys(o)]. *)
Definition keys (o : list (string * V)) : list string := map fst o.

End Dict.
End Dict.

(** ** Error aggregation: [groupMessages] *)

Record CodeEntry := mkCodeEntry {
  template : string;                    (* the [message] property of the entry *)
  pointerCounts : list (string * nat)
}.

Definition ACCESSOR_NON_UNIT : string := "ACCESSOR_NON_UNIT".
Definition ACCESSOR_ANIMATION_INPUT_NON_INCREASING : string :=
  "ACCESSOR_ANIMATION_INPUT_NON_INCREASING".

Definition CODES : list (string * CodeEntry) :=
  [ (ACCESSOR_NON_UNIT,
     mkCodeEntry "{count} accessor elements not of unit length: 0. [AGGREGATED]" []);
    (ACCESSOR_ANIMATION_INPUT_NON_INCREASING,
     mkCodeEntry "{count} animation input accessor elements not in ascending order. [AGGREGATED]" []) ].

(** Truth value of [pointerCounts[pointer]]: [undefined] and [0] are falsy. *)
Definition truthy (c : option nat) : bool :=
  match c with
  | None | Some O => false
  | Some (S _) => true
  end.

(** Numeric value of a count that has been initialised. *)
Definition count_value (c : option nat) : nat :=
  match c with Some n => n | None => O end.

(** Body of the first [forEach]: count one message. *)
Definition count_message (codes : list (string * CodeEntry)) (m : Message)
  : list (string * CodeEntry) :=
  match Dict.get (code m) codes with
  | None => codes
  | Some e =>
      let pc := pointerCounts e in
      let pc1 := if truthy (Dict.get (pointer m) pc) then pc
                 else Dict.set (pointer m) O pc in
      let pc2 := Dict.set (pointer m) (S (count_value (Dict.get (pointer m) pc1))) pc1 in
      Dict.set (code m) (mkCodeEntry (template e) pc2) codes
  end.

(** Predicate of the [filter] call. *)
Definition keep_message (codes : list (string * CodeEntry)) (m : Message) : bool :=
  match Dict.get (code m) codes with
  | None => true
  | Some e =>
      let c := Dict.get (pointer m) (pointerCounts e) in
      if truthy c then Nat.ltb (count_value c) 2 else true
  end.

(** Lines 139 to 145: the inner [forEach], one [push] per key of the
    [pointerCounts] of [code]. *)
Definition push_pointers (codes : list (string * CodeEntry)) (errors : list Message)
  (code : string) : list Message :=
  match Dict.get code codes with
  | None => errors
  | Some e =>
      fold_left
        (fun errs pointer =>
           errs ++ [mkMessage code pointer None
                      (JsString.replace "{count}"
                         (JsString.of_count (Dict.get pointer (pointerCounts e)))
                         (template e))])
        (Dict.keys (pointerCounts e)) errors
  end.

(** [groupMessages], lines 114 to 147, on [report.errors]. *)
Definition groupMessages (errors : list Message) : list Message :=
  let codes := fold_left count_message errors CODES in
  let kept := List.filter (keep_message codes) errors in
  fold_left (push_pointers codes) (Dict.keys codes) kept.

(** ** Reference notions for the aggregation step *)

(** The two diagnostic codes that [CODES] aggregates. *)
Definition aggregated (c : string) : bool :=
  String.eqb c ACCESSOR_NON_UNIT
  || String.eqb c ACCESSOR_ANIMATION_INPUT_NON_INCREASING.

Definition template_of (c : string) : string :=
  match Dict.get c CODES with
  | Some e => template e
  | None => ""
  end.

(** Number of messages of [errors] with code [c] and pointer [p]. *)
Definition occurrences (c p : string) (errors : list Message) : nat :=
  length (List.filter
            (fun m => String.eqb (code m) c && String.eqb (pointer m) p) errors).

(** Pointers of the messages with code [c], in order of appearance. *)
Definition pointers_with (c : string) (errors : list Message) : list string :=
  map pointer (List.filter (fun m => String.eqb (code m) c) errors).

(** A list without its repetitions, every element at its first place. *)
Fixpoint first_occurrences (ps : list string) : list string :=
  match ps with
  | [] => []
  | p :: ps' =>
      p :: List.filter (fun q => negb (String.eqb q p)) (first_occurrences ps')
  end.

(** A synthetic message: code, pointer and the text of the template with
    the count in it. *)
Definition synthetic (c : string) (tpl : string) (p : string) (n : nat) : Message :=
  mkMessage c p None (JsString.replace "{count}" (JsString.of_nat n) tpl).

(** The messages the [filter] call keeps. *)
Definition retained (errors : list Message) : list Message :=
  List.filter
    (fun m => negb (aggregated (code m))
              || Nat.ltb (occurrences (code m) (pointer m) errors) 2)
    errors.

(** The synthetic messages of one code: one per distinct pointer, in order
    of first appearance, with the occurrence count in the text. *)
Definition synthetics (c : string) (errors : list Message) : list Message :=
  map (fun p => synthetic c (template_of c) p (occurrences c p errors))
      (first_occurrences (pointers_with c errors)).

(** ** Counting pointers: the table built by the first loop *)

Definition count (p : string) (ps : list string) : nat :=
  length (List.filter (fun q => String.eqb q p) ps).

(** What [pointerCounts] holds once the pointers [ps] have been counted. *)
Definition tally (ps : list string) : list (string * nat) :=
  map (fun p => (p, count p ps)) (first_occurrences ps).

(** Lines 128 to 131, for a message whose code has an entry. *)
Definition bump (p : string) (pc : list (string * nat)) : list (string * nat) :=
  let pc1 := if truthy (Dict.get p pc) then pc else Dict.set p O pc in
  Dict.set p (S (count_value (Dict.get p pc1))) pc1.

(** ** The state of [CODES] after the counting loop *)

Definition counted (errors : list Message) : list (string * CodeEntry) :=
  map (fun ce => (fst ce,
                  mkCodeEntry (template (snd ce))
                              (tally (pointers_with (fst ce) errors))))
      CODES.


(** ** Generator registry *)

(** An entry of the generator registry.  The registry module is outside
    this development: its contents are the [registry] field of the state. *)
Module Tool.
Record t := mk {
  generator : string;      (* exact string or glob pattern *)
  name : string;
  author : string
}.
End Tool.

(** Modelled from the spec: the test of a glob pattern, which the
    controller delegates to a third-party module that is not part of the
    sources.  The wildcard stands for any sequence of characters, every
    other character stands for itself, and the whole string has to match. *)
Fixpoint glob_test (pat : string) (s : string) {struct pat} : bool :=
  match pat with
  | EmptyString => match s with EmptyString => true | _ => false end
  | String c pat' =>
      if Ascii.eqb c "*"%char then
        (fix star (s : string) : bool :=
           glob_test pat' s
           || match s with
              | EmptyString => false
              | String _ s' => star s'
              end) s
      else
        match s with
        | EmptyString => false
        | String d s' => Ascii.eqb c d && glob_test pat' s'
        end
  end.

(** The predicate handed to [find]. *)
Definition tool_matches (generatorID : string) (tool : Tool.t) : bool :=
  if JsString.lacks "*"%char (Tool.generator tool)
  then String.eqb (Tool.generator tool) generatorID
  else glob_test (Tool.generator tool) generatorID.

(** [array.find(pred)] returns the first element that satisfies [pred]; the
    element is an object of the array, so the result is its position. *)
Fixpoint find_ref {A : Type} (pred : A -> bool) (l : list A) : option nat :=
  match l with
  | [] => None
  | x :: l' => if pred x then Some O else option_map S (find_ref pred l')
  end.

(** Lines 90 to 94 on the entry found: the [name] of the entry is
    overwritten. *)
Definition rename (tool : Tool.t) : Tool.t :=
  if negb (String.eqb (Tool.name tool) (Tool.author tool))
  then Tool.mk (Tool.generator tool)
               (Tool.name tool ++ " by " ++ Tool.author tool)%string
               (Tool.author tool)
  else tool.

(** ** Reports *)

Record Issues := mkIssues {
  messages : list Message;
  numErrors : Z;
  numWarnings : Z;
  numInfos : Z;
  numHints : Z
}.

(** The report of the validator; [info_generator] is [report.info.generator],
    [None] when [info] or the field is absent. *)
Record RawReport := mkRawReport {
  info_generator : option string;
  issues : Issues
}.

(** The report after [setReport] has added its fields.  [generator] refers
    to an entry of the registry (it is the object itself, not a copy);
    [maxSeverity] is [report.issues.maxSeverity]. *)
Record Report := mkReport {
  raw : RawReport;
  generator : option nat;
  maxSeverity : Z;
  errors : list Message;
  warnings : list Message;
  infos : list Message;
  hints : list Message
}.

Definition SEVERITY_MAP : list string := ["Errors"; "Warnings"; "Infos"; "Hints"].

(** [report.issues[key]]: [None] is [undefined]. *)
Definition issues_get (i : Issues) (key : string) : option Z :=
  if String.eqb key "numErrors" then Some (numErrors i)
  else if String.eqb key "numWarnings" then Some (numWarnings i)
  else if String.eqb key "numInfos" then Some (numInfos i)
  else if String.eqb key "numHints" then Some (numHints i)
  else None.

(** [x > 0] for a property that may be [undefined]. *)
Definition positive (x : option Z) : bool :=
  match x with
  | Some z => Z.ltb 0 z
  | None => false
  end.

(** [array.forEach((x, index) => ...)] threading the state [s]. *)
Fixpoint forEach_indexed {A S : Type} (f : S -> A -> Z -> S) (l : list A)
  (index : Z) (s : S) : S :=
  match l with
  | [] => s
  | x :: l' => forEach_indexed f l' (index + 1)%Z (f s x index)
  end.

(** Lines 97 to 102. *)
Definition computeMaxSeverity (i : Issues) : Z :=
  forEach_indexed
    (fun maxSev severity index =>
       if positive (issues_get i ("num" ++ severity)%string) && Z.eqb maxSev (-1)
       then index else maxSev)
    SEVERITY_MAP 0%Z (-1)%Z.

(** [msg.severity === n]. *)
Definition severity_is (n : Z) (msg : Message) : bool :=
  match severity msg with
  | Some s => Z.eqb s n
  | None => false
  end.

(** Lines 103 to 106: the four sequences before aggregation. *)
Record Buckets := mkBuckets {
  b_errors : list Message;
  b_warnings : list Message;
  b_infos : list Message;
  b_hints : list Message
}.

Definition partition_messages (msgs : list Message) : Buckets :=
  mkBuckets (List.filter (severity_is 0) msgs)
            (List.filter (severity_is 1) msgs)
            (List.filter (severity_is 2) msgs)
            (List.filter (severity_is 3) msgs).

(** ** Browser state and promises *)

Inductive Error :=
| TypeError (msg : string)
| URIError (msg : string)
| ValidatorError (msg : string).

(** A dropped file: its bytes, whether it can still be opened, and whether
    it can then be read to its end. *)
Record File := mkFile {
  contents : list Byte.byte;
  available : bool;
  intact : bool
}.

Inductive Settled (A : Type) :=
| Fulfilled (a : A)
| Rejected (e : Error).
Arguments Fulfilled {A} a.
Arguments Rejected {A} e.

(** A response; [body] is what [arrayBuffer()] settles to. *)
Record Response := mkResponse {
  body : Settled (list Byte.byte)
}.

Record Browser := mkBrowser {
  objectURLs : gmap string File;   (* object URLs created and not revoked *)
  created : nat;                   (* number of object URLs created so far *)
  requests : list string           (* URLs requested from the network *)
}.

(** A promise, run to settlement: a result and the browser state then. *)
Definition Promise (A : Type) : Type := Browser -> Settled A * Browser.

Definition resolve {A : Type} (a : A) : Promise A := fun b => (Fulfilled a, b).

(** [p.then(f)]: a rejection of [p] skips [f]. *)
Definition and_then {A B : Type} (p : Promise A) (f : A -> Promise B) : Promise B :=
  fun b =>
    match p b with
    | (Fulfilled a, b') => f a b'
    | (Rejected e, b') => (Rejected e, b')
    end.

Notation "p >>= f" := (and_then p f) (at level 50, left associativity).

(** [URL.createObjectURL(object)]. *)
Definition object_url (n : nat) : string := ("blob:" ++ JsString.of_nat n)%string.

Definition createObjectURL (object : File) (b : Browser) : string * Browser :=
  let url := object_url (created b) in
  (url, mkBrowser (<[url := object]> (objectURLs b)) (S (created b)) (requests b)).

(** [URL.revokeObjectURL(url)]. *)
Definition revokeObjectURL (url : string) (b : Browser) : Browser :=
  mkBrowser (delete url (objectURLs b)) (created b) (requests b).

(** What the controller takes from its environment: two library functions,
    the network and the validator. *)
Record Host := mkHost {
  (* [decodeURI]; [None] when it throws *)
  decodeURI : string -> option string;
  (* [THREE.LoaderUtils.extractUrlBase]: the base directory of a URL *)
  extractUrlBase : string -> string;
  (* what a network request for a URL settles to *)
  network : string -> Settled Response;
  (* [validator.validateBytes(bytes, {externalResourceFunction})] *)
  validateBytes :
    list Byte.byte -> (string -> Promise (list Byte.byte)) -> Promise RawReport
}.

(** Reading a dropped file through its object URL. *)
Definition read_file (f : File) : Settled Response :=
  if available f
  then Fulfilled (mkResponse (if intact f then Fulfilled (contents f)
                              else Rejected (TypeError "The file could not be read")))
  else Rejected (TypeError "Failed to fetch").

(** [response.arrayBuffer()]. *)
Definition arrayBuffer (response : Response) : Promise (list Byte.byte) :=
  fun b => (body response, b).

(** ** Report normaliser and presenter *)

(** What the toggle element shows: the context its template was rendered
    with.  The template reads [report.generator.name] when it runs, so the
    view records the registry entry as it was then. *)
Inductive ToggleView :=
| NoView
| ReportView (report : Report) (tool : option Tool.t)
| ExceptionView (reportError : Error) (level : Z).

(** The controller ([this]), the registry module it shares with every
    other use, the browser, and the tabs opened by [showLightbox]. *)
Record State := mkState {
  report : option Report;          (* [this.report]; [None] is [null] *)
  toggle : ToggleView;             (* [this.toggleEl.innerHTML] *)
  hidden : bool;                   (* class [hidden] of [this.toggleEl] *)
  registry : list Tool.t;          (* [registry.generators] *)
  browser : Browser;
  tabs : list Report
}.

Definition showToggle (st : State) : State :=
  mkState (report st) (toggle st) false (registry st) (browser st) (tabs st).

Definition hideToggle (st : State) : State :=
  mkState (report st) (toggle st) true (registry st) (browser st) (tabs st).

(** [setReport], lines 82 to 112.  The toggle template is rendered with the
    report; the click listeners bound by [bindListeners] call [showLightbox]
    and [hideToggle] and are not part of the state. *)
Definition setReport (r : RawReport) (st : State) : State :=
  let generatorID := match info_generator r with
                     | Some g => g
                     | None => ""
                     end in
  let generator := find_ref (tool_matches generatorID) (registry st) in
  let registry' := match generator with
                   | Some i => alter rename i (registry st)
                   | None => registry st
                   end in
  let buckets := partition_messages (messages (issues r)) in
  let report := mkReport r generator (computeMaxSeverity (issues r))
                         (groupMessages (b_errors buckets))
                         (b_warnings buckets) (b_infos buckets)
                         (b_hints buckets) in
  let tool := match generator with
              | Some i => registry' !! i
              | None => None
              end in
  showToggle
    (mkState (Some report) (ReportView report tool) (hidden st) registry'
             (browser st) (tabs st)).

(** [setReportException], lines 153 to 158. *)
Definition setReportException (e : Error) (st : State) : State :=
  showToggle
    (mkState None (ExceptionView e 0) (hidden st) (registry st)
             (browser st) (tabs st)).

(** [showLightbox], lines 179 to 183. *)
Definition showLightbox (st : State) : State :=
  match report st with
  | None => st
  | Some r =>
      mkState (report st) (toggle st) (hidden st) (registry st) (browser st)
              (tabs st ++ [r])
  end.

(** The name the presenter displays for the generator of the held report. *)
Definition displayed_generator_name (st : State) : option string :=
  match toggle st with
  | ReportView _ (Some tool) => Some (Tool.name tool)
  | _ => None
  end.

(** ** Asset resolver and validation runner *)

(** Lines 59 to 61: the key looked up in the asset map. *)
Definition normalizeURL (baseURL rootPath decoded : string) : string :=
  (rootPath
   ++ JsString.strip_leading_slash (JsString.replace baseURL "" decoded))%string.

Section Controller.
Variable host : Host.

(** [fetch(url)]: a live object URL is read from memory, any other URL is
    requested from the network. *)
Definition fetch (url : string) : Promise Response :=
  fun b =>
    match objectURLs b !! url with
    | Some f => (read_file f, b)
    | None =>
        (network host url,
         mkBrowser (objectURLs b) (created b) (requests b ++ [url]))
    end.

(** ** Asset resolver: [resolveExternalResource] *)

(** An exception of [decodeURI] leaves the function before any promise
    exists; the caller sees a failure, reported here as a rejection. *)
Definition resolveExternalResource (uri rootFile rootPath : string)
  (assetMap : gmap string File) : Promise (list Byte.byte) :=
  fun b =>
    let baseURL := extractUrlBase host rootFile in
    match decodeURI host uri with
    | None => (Rejected (URIError "URI malformed"), b)
    | Some decoded =>
        let normalizedURL := normalizeURL baseURL rootPath decoded in
        let '(objectURL, b1) :=
          match assetMap !! normalizedURL with
          | Some object =>
              let '(url, b') := createObjectURL object b in (Some url, b')
          | None => (None, b)
          end in
        (fetch (match objectURL with
                | Some url => url
                | None => (baseURL ++ uri)%string
                end)
           >>= (fun response => arrayBuffer response)
           >>= (fun buffer b2 =>
                    (Fulfilled buffer,
                     match objectURL with
                     | Some url => revokeObjectURL url b2
                     | None => b2
                     end))) b1
    end.

(** ** Validation runner: [validate] *)

(** The promise chain of lines 39 to 44. *)
Definition validation (rootFile rootPath : string) (assetMap : gmap string File)
  : Promise RawReport :=
  fetch rootFile
    >>= (fun response => arrayBuffer response)
    >>= (fun buffer =>
           validateBytes host buffer
             (fun uri => resolveExternalResource uri rootFile rootPath assetMap)).

(** [validate]: the chain, then [setReport] or, after a rejection,
    [setReportException].  The [catch] handler comes last, so it would also
    receive an exception of [setReport]; [setReport] has no failing step
    here. *)
Definition validate (rootFile rootPath : string) (assetMap : gmap string File)
  (st : State) : State :=
  match validation rootFile rootPath assetMap (browser st) with
  | (Fulfilled r, b) =>
      setReport r (mkState (report st) (toggle st) (hidden st) (registry st) b (tabs st))
  | (Rejected e, b) =>
      setReportException e
        (mkState (report st) (toggle st) (hidden st) (registry st) b (tabs st))
  end.

End Controller.


(** ** Reference notions for the other steps *)

(** Position, counted from [i], of the first number of [l] that is greater
    than zero; [-1] when there is none. *)
Fixpoint first_positive (i : Z) (l : list Z) : Z :=
  match l with
  | [] => (-1)%Z
  | x :: l' => if Z.ltb 0 x then i else first_positive (i + 1)%Z l'
  end.

(** Glob semantics as a relation: the wildcard stands for any sequence of
    characters, any other character for itself. *)
Inductive glob_matches : string -> string -> Prop :=
| glob_end : glob_matches "" ""
| glob_char c pat s :
    c <> "*"%char -> glob_matches pat s ->
    glob_matches (String c pat) (String c s)
| glob_star pat s1 s2 :
    glob_matches pat s2 ->
    glob_matches (String "*"%char pat) (s1 ++ s2)%string.



(** ** Sample data *)

Definition err (c p : string) : Message := mkMessage c p (Some 0%Z) "e".

Definition empty_browser : Browser := mkBrowser ∅ 0 [].

Definition no_issues : Issues := mkIssues [] 0 0 0 0.

Definition initial_state (reg : list Tool.t) : State :=
  mkState None NoView true reg empty_browser [].

(** The part of a URL up to its last slash, if it has one. *)
Fixpoint up_to_last_slash (url : string) : option string :=
  match url with
  | EmptyString => None
  | String c url' =>
      match up_to_last_slash url' with
      | Some base => Some (String c base)
      | None => if Ascii.eqb c "/"%char then Some "/" else None
      end
  end.

(** A host for the examples: URIs without escapes decode to themselves,
    the base of a URL without a slash is [./], the network has nothing, and
    the validator asks for no resource and reports no issue. *)
Definition sample_host : Host :=
  mkHost (fun uri => Some uri)
         (fun url => match up_to_last_slash url with
                     | Some base => base
                     | None => "./"
                     end)
         (fun url => Rejected (TypeError "Failed to fetch"))
         (fun _ _ => resolve (mkRawReport None no_issues)).

Definition texture : File := mkFile [Byte.x89; Byte.x50; Byte.x4e; Byte.x47] true true.

Definition lost_texture : File := mkFile [Byte.x89; Byte.x50; Byte.x4e; Byte.x47] false true.

(** ** Further notions used by the properties of the whole controller *)

(** The object URLs that are live were all handed out by
    [createObjectURL], which numbers them. *)
Definition browser_wf (b : Browser) : Prop :=
  forall url f, objectURLs b !! url = Some f ->
                exists n, n < created b /\ url = object_url n.

(** [s.indexOf(pat) !== -1]. *)
Fixpoint occurs (pat s : string) : bool :=
  String.prefix pat s
  || match s with
     | EmptyString => false
     | String _ s' => occurs pat s'
     end.

(** The suffix that [n] runs of line 92 leave behind the name. *)
Fixpoint by_author (n : nat) (author : string) : string :=
  match n with
  | O => EmptyString
  | S n' => (by_author n' author ++ " by " ++ author)%string
  end.

(** [report.info.generator || ''] of line 82. *)
Definition generatorID (r : RawReport) : string :=
  match info_generator r with
  | Some g => g
  | None => ""
  end.

(** The table of pointer counts that the counting loop leaves for [c]. *)
Definition counts_of (c : string) (errors : list Message) : list (string * nat) :=
  match Dict.get c (fold_left count_message errors CODES) with
  | Some e => pointerCounts e
  | None => []
  end.

(** The sum of the counts of a table. *)
Definition total (pc : list (string * nat)) : nat :=
  fold_right (fun pn acc => snd pn + acc) 0 pc.

(** The summary counts of the validator agree with its messages. *)
Definition counts_agree (i : Issues) : Prop :=
  numErrors i = Z.of_nat (length (List.filter (severity_is 0) (messages i)))
  /\ numWarnings i = Z.of_nat (length (List.filter (severity_is 1) (messages i)))
  /\ numInfos i = Z.of_nat (length (List.filter (severity_is 2) (messages i)))
  /\ numHints i = Z.of_nat (length (List.filter (severity_is 3) (messages i))).

(** What can happen to the controller: a validation is run, a report or
    an exception is presented, the close button of the toggle is clicked
    ([hideToggle]), the toggle itself is clicked ([showLightbox]). *)
Inductive Action :=
| Validated (rootFile rootPath : string) (assetMap : gmap string File)
| Reported (r : RawReport)
| Failed (e : Error)
| Dismissed
| Opened.

Definition step (host : Host) (st : State) (a : Action) : State :=
  match a with
  | Validated rootFile rootPath assetMap => validate host rootFile rootPath assetMap st
  | Reported r => setReport r st
  | Failed e => setReportException e st
  | Dismissed => hideToggle st
  | Opened => showLightbox st
  end.

Definition run (host : Host) (actions : list Action) (st : State) : State :=
  fold_left (step host) actions st.

(** The two states of the toggle, [true] for hidden, followed through a
    sequence of actions. *)
Definition hidden_after (actions : list Action) (h : bool) : bool :=
  fold_left (fun h a => match a with
                        | Dismissed => true
                        | Opened => h
                        | _ => false
                        end) actions h.

(** The toggle shows what the controller holds: the held report, or an
    exception (or nothing yet) when no report is held. *)
Definition view_matches (st : State) : Prop :=
  match report st, toggle st with
  | Some held, ReportView shown _ => held = shown
  | None, ExceptionView _ _ => True
  | None, NoView => True
  | _, _ => False
  end.

(** ** The loader hook of the viewer *)

(** [Viewer.load], lines 106 to 142.  The call keeps the object URLs it
    creates in the array [blobURLs]; [page] is the browser. *)
Record Loading := mkLoading {
  blobURLs : list string;
  page : Browser
}.

(** [window.gltfPathTransform], lines 116 to 127; [path] is [None] when the
    loader passes none. *)
Definition gltfPathTransform (rootPath : string) (assetMap : gmap string File)
  (url : string) (path : option string) (l : Loading) : string * Loading :=
  let normalizedURL := (rootPath ++ JsString.strip_leading_slash url)%string in
  match assetMap !! normalizedURL with
  | Some blob =>
      let '(blobURL, b) := createObjectURL blob (page l) in
      (blobURL, mkLoading (blobURLs l ++ [blobURL]) b)
  | None =>
      ((match path with Some p => p | None => "" end ++ url)%string, l)
  end.

(** Line 133: [blobURLs.forEach(URL.revokeObjectURL)]. *)
Definition revokeBlobURLs (l : Loading) : Browser :=
  fold_left (fun b blobURL => revokeObjectURL blobURL b) (blobURLs l) (page l).

(** The calls of the hook that the loader makes for one file, in order:
    the URLs it gets back and the state of the call afterwards. *)
Definition transformAll (rootPath : string) (assetMap : gmap string File)
  (calls : list (string * option string)) (l : Loading) : list string * Loading :=
  fold_left
    (fun acc call =>
       let '(u, l') := gltfPathTransform rootPath assetMap (fst call) (snd call) (snd acc) in
       (fst acc ++ [u], l'))
    calls ([], l).

(** [Viewer.load] as far as object URLs go: the loader calls the hook for
    the resources [calls] of the file; when it succeeds (and the content is
    set) the URLs of the call are revoked, when it fails the promise is
    rejected and they are not. *)
Definition load (rootPath : string) (assetMap : gmap string File)
  (calls : list (string * option string)) (succeeds : bool) (b : Browser) : Browser :=
  let l := snd (transformAll rootPath assetMap calls (mkLoading [] b)) in
  if succeeds then revokeBlobURLs l else page l.

(** The calls of the hook that find their key in the asset map. *)
Definition hits (rootPath : string) (assetMap : gmap string File)
  (calls : list (string * option string)) : list (string * option string) :=
  List.filter
    (fun call =>
       match assetMap !! (rootPath ++ JsString.strip_leading_slash (fst call))%string with
       | Some _ => true
       | None => false
       end) calls.

(** The state of a call of [Viewer.load] that started in the browser
    state [b] and has created [k] object URLs since. *)
Definition loading_from (b : Browser) (k : nat) (l : Loading) : Prop :=
  created (page l) = created b + k
  /\ blobURLs l = map object_url (seq (created b) k)
  /\ requests (page l) = requests b
  /\ (forall u, ~ In u (blobURLs l) -> objectURLs (page l) !! u = objectURLs b !! u)
  /\ (forall u, In u (blobURLs l) -> is_Some (objectURLs (page l) !! u)).


(** ** Reference notions for the asset resolver *)

(** The rest of [s] behind [p], when [s] starts with [p]. *)
Fixpoint strip_prefix (p s : string) : option string :=
  match p, s with
  | EmptyString, _ => Some s
  | String _ _, EmptyString => None
  | String a p', String c s' =>
      if Ascii.eqb a c then strip_prefix p' s' else None
  end.

(** [s] without one leading [./] or [/]. *)
Definition strip_leading (s : string) : string :=
  match s with
  | String c s' =>
      if Ascii.eqb c "/"%char then s'
      else if Ascii.eqb c "."%char
           then match s' with
                | String d s'' => if Ascii.eqb d "/"%char then s'' else s
                | EmptyString => s
                end
           else s
  | EmptyString => s
  end.

(** The canonical key in the words of the specification: the decoded URI
    loses the base directory of the root file when it starts with it, then
    one leading [./] or [/], and the root path is put in front.  It is
    written without the string functions of the resolver, to be compared
    with [normalizeURL]. *)
Definition canonical_key (baseDirectory rootPath decoded : string) : string :=
  (rootPath
   ++ strip_leading (match strip_prefix baseDirectory decoded with
                     | Some rest => rest
                     | None => decoded
                     end))%string.

(** A host whose network has the root file [scene.gltf] and nothing else,
    and whose validator asks the resolver for [missing.bin] and goes on to
    its report whatever becomes of that request, as a validator does that
    turns an unavailable resource into a message of its report. *)
Definition absorbing_host : Host :=
  mkHost (fun uri => Some uri)
         (fun url => match up_to_last_slash url with
                     | Some base => base
                     | None => "./"
                     end)
         (fun url => if String.eqb url "scene.gltf"
                     then Fulfilled (mkResponse (Fulfilled []))
                     else Rejected (TypeError "Failed to fetch"))
         (fun _ resolver b =>
            let '(_, b') := resolver "missing.bin" b in
            (Fulfilled (mkRawReport None no_issues), b')).
(** ** The viewer: lights and animation *)

(** The part of [Viewer] that does not compute with coordinates: the
    lights ([updateLights], [addLights], [removeLights]), the animation
    ([setClips], [playAnimation], [stopAnimation]) and the handlers that
    [addGUI] binds to them.  Objects of the rendering library are known by
    the calls made on them: the scene by the lights added to it and removed
    from it, a mixer by the actions played and stopped.  Slider values and
    clips are kept as they are given. *)
Module Viewer.
Section Viewer.
Context {Num Clip : Type}.

Inductive LightKind := DirectionalLight | AmbientLight.

(** A light; [id] tells the objects apart, [intensity] is [None] until a
    handler assigns one, [position] is [None] when none is set. *)
Record Light := mkLight {
  id : nat;
  kind : LightKind;
  color : Z;
  intensity : option Num;
  position : option (Z * Z * Z)
}.

Inductive SceneCall := SceneAdd (light : nat) | SceneRemove (light : nat).

Inductive MixerCall := Play (clip : Clip) | StopAllAction.

(** [this.state] (the fields used here), [this.lights], [this.scene],
    [this.mixer] and [this.clips]; [created] numbers the lights. *)
Record State := mkState {
  addLightsFlag : bool;            (* [state.addLights] *)
  playAnimationFlag : bool;        (* [state.playAnimation] *)
  directColor : Z;
  ambientColor : Z;
  lights : list Light;
  created : nat;
  scene : list SceneCall;
  mixer : option (list MixerCall); (* [None] is [null] *)
  clips : list Clip
}.

(** The constructor, lines 16 to 32. *)
Definition initial : State :=
  mkState true true 16772829 2236962 [] 0 [] None [].

(** A method returns, or throws a [TypeError] and leaves the viewer as it
    was at that point. *)
Inductive Outcome :=
| Returned (v : State)
| Threw (v : State).

Definition and_then (o : Outcome) (f : State -> Outcome) : Outcome :=
  match o with
  | Returned v => f v
  | Threw v => Threw v
  end.

Definition state_of (o : Outcome) : State :=
  match o with
  | Returned v => v
  | Threw v => v
  end.

(** [addLights], lines 217 to 232. *)
Definition addLights (v : State) : State :=
  let light1 := mkLight (created v) DirectionalLight (directColor v) None
                        (Some (0, 0, 1)%Z) in
  let light2 := mkLight (S (created v)) DirectionalLight (directColor v) None
                        (Some (0, 5, -5)%Z) in
  let light3 := mkLight (S (S (created v))) AmbientLight (ambientColor v) None None in
  mkState (addLightsFlag v) (playAnimationFlag v) (directColor v) (ambientColor v)
          (lights v ++ [light1; light2; light3])
          (S (S (S (created v))))
          (scene v ++ [SceneAdd (id light1); SceneAdd (id light2); SceneAdd (id light3)])
          (mixer v) (clips v).

(** [removeLights], lines 234 to 239. *)
Definition removeLights (v : State) : State :=
  mkState (addLightsFlag v) (playAnimationFlag v) (directColor v) (ambientColor v)
          []
          (created v)
          (fold_left (fun calls light => calls ++ [SceneRemove (id light)])
                     (lights v) (scene v))
          (mixer v) (clips v).

(** [updateLights], lines 209 to 215. *)
Definition updateLights (v : State) : State :=
  if addLightsFlag v && Nat.eqb (length (lights v)) 0 then addLights v
  else if negb (addLightsFlag v) && negb (Nat.eqb (length (lights v)) 0)
       then removeLights v
       else v.

(** [this.lights[i].field = ...]: a [TypeError] when there is no such
    light. *)
Definition with_light (i : nat) (f : Light -> Light) (v : State) : Outcome :=
  match nth_error (lights v) i with
  | Some _ =>
      Returned (mkState (addLightsFlag v) (playAnimationFlag v) (directColor v)
                        (ambientColor v) (alter f i (lights v)) (created v)
                        (scene v) (mixer v) (clips v))
  | None => Threw v
  end.

Definition setHex (hex : Z) (l : Light) : Light :=
  mkLight (id l) (kind l) hex (intensity l) (position l).

Definition setIntensity (x : Num) (l : Light) : Light :=
  mkLight (id l) (kind l) (color l) (Some x) (position l).

(** The handlers of the light controls, lines 300 to 317. *)
Definition onDirectColor (hex : Z) (v : State) : Outcome :=
  and_then (with_light 0 (setHex hex) v) (with_light 1 (setHex hex)).

Definition onDirectIntensity (x : Num) (v : State) : Outcome :=
  and_then (with_light 0 (setIntensity x) v) (with_light 1 (setIntensity x)).

Definition onAmbientColor (hex : Z) (v : State) : Outcome :=
  with_light 2 (setHex hex) v.

Definition onAmbientIntensity (x : Num) (v : State) : Outcome :=
  with_light 2 (setIntensity x) v.

(** [playAnimation], lines 201 to 203: [this.mixer.clipAction(clip).play()]
    for every clip, a [TypeError] at the first clip when there is no
    mixer. *)
Definition playAnimation (v : State) : Outcome :=
  match clips v, mixer v with
  | [], _ => Returned v
  | _ :: _, None => Threw v
  | _ :: _, Some calls =>
      Returned (mkState (addLightsFlag v) (playAnimationFlag v) (directColor v)
                        (ambientColor v) (lights v) (created v) (scene v)
                        (Some (calls ++ map Play (clips v))) (clips v))
  end.

(** [stopAnimation], lines 205 to 207. *)
Definition stopAnimation (v : State) : State :=
  match mixer v with
  | Some calls =>
      mkState (addLightsFlag v) (playAnimationFlag v) (directColor v)
              (ambientColor v) (lights v) (created v) (scene v)
              (Some (calls ++ [StopAllAction])) (clips v)
  | None => v
  end.

(** [setClips], lines 185 to 199.  The mixer that is dropped receives
    [stopAllAction] and [uncacheRoot] before, which nothing sees any more. *)
Definition setClips (newClips : list Clip) (v : State) : Outcome :=
  let v1 := stopAnimation v in
  let v2 := mkState (addLightsFlag v1) (playAnimationFlag v1) (directColor v1)
                    (ambientColor v1) (lights v1) (created v1) (scene v1)
                    None newClips in
  match newClips with
  | [] => Returned v2
  | _ :: _ =>
      let v3 := mkState (addLightsFlag v2) (playAnimationFlag v2) (directColor v2)
                        (ambientColor v2) (lights v2) (created v2) (scene v2)
                        (Some []) (clips v2) in
      if playAnimationFlag v3 then playAnimation v3 else Returned v3
  end.

(** What the user does with the panel: the control writes the value into
    [this.state] and then calls the handler bound in [addGUI]. *)
Inductive Control :=
| SetPlayAnimation (on : bool)
| SetAddLights (on : bool)
| SetDirectColor (hex : Z)
| SetDirectIntensity (x : Num)
| SetAmbientColor (hex : Z)
| SetAmbientIntensity (x : Num).

Definition change (c : Control) (v : State) : Outcome :=
  match c with
  | SetPlayAnimation on =>
      let v' := mkState (addLightsFlag v) on (directColor v) (ambientColor v)
                        (lights v) (created v) (scene v) (mixer v) (clips v) in
      if on then playAnimation v' else Returned (stopAnimation v')
  | SetAddLights on =>
      Returned (updateLights
                  (mkState on (playAnimationFlag v) (directColor v) (ambientColor v)
                           (lights v) (created v) (scene v) (mixer v) (clips v)))
  | SetDirectColor hex =>
      onDirectColor hex
        (mkState (addLightsFlag v) (playAnimationFlag v) hex (ambientColor v)
                 (lights v) (created v) (scene v) (mixer v) (clips v))
  | SetDirectIntensity x => onDirectIntensity x v
  | SetAmbientColor hex =>
      onAmbientColor hex
        (mkState (addLightsFlag v) (playAnimationFlag v) (directColor v) hex
                 (lights v) (created v) (scene v) (mixer v) (clips v))
  | SetAmbientIntensity x => onAmbientIntensity x v
  end.

(** What happens to the viewer: a control of the panel is changed, the
    clips of a loaded file are set, or the lights are updated. *)
Inductive Event :=
| Changed (c : Control)
| ClipsSet (newClips : list Clip)
| LightsUpdated.

(** An event and the state it leaves, thrown exception or not. *)
Definition handle (v : State) (e : Event) : State :=
  match e with
  | Changed c => state_of (change c v)
  | ClipsSet newClips => state_of (setClips newClips v)
  | LightsUpdated => updateLights v
  end.

(** The lights that the calls recorded for the scene leave in it. *)
Fixpoint in_scene (calls : list SceneCall) (present : list nat) : list nat :=
  match calls with
  | [] => present
  | SceneAdd light :: calls' => in_scene calls' (present ++ [light])
  | SceneRemove light :: calls' =>
      in_scene calls' (List.filter (fun l => negb (Nat.eqb l light)) present)
  end.

(** The lights of the viewer are none or the three of [addLights], they
    are the lights in the scene, and a mixer exists when there are
    clips. *)
Definition consistent (v : State) : Prop :=
  (lights v = [] \/ exists l1 l2 l3, lights v = [l1; l2; l3])
  /\ in_scene (scene v) [] = map id (lights v)
  /\ List.NoDup (map id (lights v))
  /\ (forall l, In l (lights v) -> id l < created v)
  /\ (clips v <> [] -> mixer v <> None).

End Viewer.
End Viewer.

(** ** Lemmas on dictionaries *)

Section DictFacts.
Context {V : Type}.
Implicit Types (o : list (string * V)) (k : string) (v : V).

Lemma get_set_eq k v o : Dict.get k (Dict.set k v o) = Some v.
Proof.
  induction o as [|[k' v'] o IH]; simpl.
  - now rewrite String.eqb_refl.
  - destruct (String.eqb k k') eqn:E; simpl; rewrite E; auto.
Qed.

Lemma get_set_ne k k' v o :
  k <> k' -> Dict.get k' (Dict.set k v o) = Dict.get k' o.
Proof.
  intros Hne. induction o as [|[k0 v0] o IH]; simpl.
  - destruct (String.eqb_spec k' k); congruence.
  - destruct (String.eqb_spec k k0) as [->|Hk]; simpl.
    + destruct (String.eqb_spec k' k0); congruence.
    + now rewrite IH.
Qed.

Lemma get_map_key (f : string -> V) k (ks : list string) :
  Dict.get k (map (fun q => (q, f q)) ks) = if In_dec string_dec k ks then Some (f k) else None.
Proof.
  induction ks as [|q ks IH]; simpl; [reflexivity|].
  destruct (String.eqb_spec k q) as [->|Hk].
  - destruct (string_dec q q); [reflexivity|congruence].
  - rewrite IH. destruct (string_dec q k); [congruence|].
    destruct (In_dec string_dec k ks); reflexivity.
Qed.

Lemma set_map_fresh (f : string -> V) k v (ks : list string) :
  ~ In k ks ->
  Dict.set k v (map (fun q => (q, f q)) ks) = map (fun q => (q, f q)) ks ++ [(k, v)].
Proof.
  induction ks as [|q ks IH]; simpl; intros Hin; [reflexivity|].
  destruct (String.eqb_spec k q) as [->|Hk]; [tauto|].
  rewrite IH; tauto.
Qed.

Lemma set_map_present (f g : string -> V) k v (ks : list string) :
  List.NoDup ks -> In k ks -> g k = v -> (forall q, q <> k -> g q = f q) ->
  Dict.set k v (map (fun q => (q, f q)) ks) = map (fun q => (q, g q)) ks.
Proof.
  intros Hnd Hin Hg Hf. induction Hnd as [|q ks Hq Hnd IH]; simpl in *; [tauto|].
  destruct (String.eqb_spec k q) as [->|Hk].
  - rewrite Hg. f_equal. apply map_ext_in. intros a Ha.
    rewrite Hf; [reflexivity|]. intros E. apply Hq. now rewrite <- E.
  - destruct Hin as [->|Hin]; [congruence|].
    rewrite IH by assumption. rewrite Hf by congruence. reflexivity.
Qed.
End DictFacts.

Lemma count_app p ps qs : count p (ps ++ qs) = count p ps + count p qs.
Proof. unfold count. now rewrite List.filter_app, length_app. Qed.

Lemma count_single p q : count p [q] = if String.eqb q p then 1 else 0.
Proof. unfold count. simpl. now destruct (String.eqb q p). Qed.

Lemma count_In p ps : In p ps <-> 0 < count p ps.
Proof.
  unfold count. induction ps as [|q ps IH]; simpl; [split; [tauto|lia]|].
  destruct (String.eqb_spec q p) as [->|Hq]; simpl.
  - split; [lia|auto].
  - rewrite <- IH. split; [intros [?|?]; congruence || auto | auto].
Qed.

Lemma In_first_occurrences p ps : In p (first_occurrences ps) <-> In p ps.
Proof.
  induction ps as [|q ps IH]; simpl; [tauto|].
  rewrite List.filter_In, IH.
  destruct (String.eqb_spec p q) as [->|Hq]; simpl; [tauto|].
  split; [intros [?|[? _]]; auto | intros [?|?]; auto].
Qed.

Lemma NoDup_first_occurrences ps : List.NoDup (first_occurrences ps).
Proof.
  induction ps as [|q ps IH]; simpl; constructor.
  - rewrite List.filter_In, String.eqb_refl. simpl. intros [_ H]. discriminate.
  - now apply List.NoDup_filter.
Qed.

Lemma first_occurrences_snoc ps p :
  first_occurrences (ps ++ [p]) =
  if In_dec string_dec p ps then first_occurrences ps
  else first_occurrences ps ++ [p].
Proof.
  induction ps as [|q ps IH]; simpl; [reflexivity|].
  rewrite IH. destruct (string_dec q p) as [->|Hq].
  - destruct (In_dec string_dec p ps); [reflexivity|].
    rewrite List.filter_app. simpl. rewrite String.eqb_refl. simpl.
    now rewrite app_nil_r.
  - destruct (In_dec string_dec p ps); [reflexivity|].
    rewrite List.filter_app. simpl.
    destruct (String.eqb_spec p q); [congruence|reflexivity].
Qed.

Lemma bump_tally p ps : bump p (tally ps) = tally (ps ++ [p]).
Proof.
  unfold bump, tally. rewrite first_occurrences_snoc.
  rewrite get_map_key.
  destruct (In_dec string_dec p (first_occurrences ps)) as [Hin|Hout];
    destruct (In_dec string_dec p ps) as [Hin'|Hout'];
    try (rewrite In_first_occurrences in *; tauto).
  - pose proof (proj1 (count_In p ps) Hin') as Hpos.
    destruct (count p ps) as [|n] eqn:Hc; [lia|]. simpl truthy. cbv iota.
    rewrite get_map_key.
    destruct (In_dec string_dec p (first_occurrences ps)); [|contradiction].
    simpl count_value.
    apply set_map_present; auto using NoDup_first_occurrences.
    + rewrite count_app, Hc, count_single, String.eqb_refl. lia.
    + intros q Hq. rewrite count_app, count_single.
      destruct (String.eqb_spec p q); [congruence|]. lia.
  - simpl truthy. cbv iota.
    rewrite set_map_fresh by assumption.
    assert (Hget : Dict.get p (map (fun q => (q, count q ps)) (first_occurrences ps) ++ [(p, O)]) = Some O).
    { clear -Hout. induction (first_occurrences ps) as [|q l IH]; simpl in *.
      - now rewrite String.eqb_refl.
      - destruct (String.eqb_spec p q); [intuition congruence|]. apply IH. tauto. }
    rewrite Hget. simpl count_value.
    assert (Hset : forall (l : list (string * nat)) v w,
               ~ In p (map fst l) -> Dict.set p w (l ++ [(p, v)]) = l ++ [(p, w)]).
    { clear. induction l as [|[q x] l IH]; simpl; intros v w Hl.
      - now rewrite String.eqb_refl.
      - destruct (String.eqb_spec p q); [intuition congruence|]. rewrite IH; tauto. }
    rewrite Hset by (rewrite map_map; simpl; now rewrite map_id).
    rewrite map_app. simpl. f_equal.
    + apply map_ext_in. intros q Hq. rewrite count_app, count_single.
      destruct (String.eqb_spec p q) as [->|]; [tauto|]. f_equal; lia.
    + rewrite count_app, count_single, String.eqb_refl.
      destruct (count p ps) eqn:Hc; [reflexivity|].
      exfalso. apply Hout', count_In. lia.
Qed.

Lemma pointers_with_snoc c l m :
  pointers_with c (l ++ [m]) =
  pointers_with c l ++ (if String.eqb (code m) c then [pointer m] else []).
Proof.
  unfold pointers_with. rewrite List.filter_app, map_app. simpl.
  now destruct (String.eqb (code m) c).
Qed.

Lemma occurrences_count c p l : occurrences c p l = count p (pointers_with c l).
Proof.
  unfold occurrences, count, pointers_with.
  induction l as [|m l IH]; simpl; [reflexivity|].
  destruct (String.eqb (code m) c); simpl; [|exact IH].
  destruct (String.eqb (pointer m) p); simpl; now rewrite IH.
Qed.

Lemma codes_distinct :
  String.eqb ACCESSOR_NON_UNIT ACCESSOR_ANIMATION_INPUT_NON_INCREASING = false.
Proof. reflexivity. Qed.

Lemma count_message_bump codes m :
  count_message codes m =
  match Dict.get (code m) codes with
  | None => codes
  | Some e =>
      Dict.set (code m)
               (mkCodeEntry (template e) (bump (pointer m) (pointerCounts e))) codes
  end.
Proof. reflexivity. Qed.

Lemma count_message_counted l m :
  count_message (counted l) m = counted (l ++ [m]).
Proof.
  rewrite count_message_bump. unfold counted, CODES.
  cbn [map fst snd template Dict.get Dict.set].
  rewrite !pointers_with_snoc.
  destruct (String.eqb_spec (code m) ACCESSOR_NON_UNIT) as [E1|N1].
  - cbn [pointerCounts template]. rewrite bump_tally.
    rewrite E1, codes_distinct, app_nil_r. reflexivity.
  - destruct (String.eqb_spec (code m) ACCESSOR_ANIMATION_INPUT_NON_INCREASING) as [E2|N2].
    + cbn [pointerCounts template]. rewrite bump_tally, !app_nil_r. reflexivity.
    + now rewrite !app_nil_r.
Qed.

Lemma fold_count_message l0 l :
  fold_left count_message l (counted l0) = counted (l0 ++ l).
Proof.
  revert l0. induction l as [|m l IH]; intros l0; simpl.
  - now rewrite app_nil_r.
  - rewrite count_message_counted, IH. now rewrite <- app_assoc.
Qed.

Lemma keep_message_counted l m :
  keep_message (counted l) m =
  negb (aggregated (code m)) || Nat.ltb (occurrences (code m) (pointer m) l) 2.
Proof.
  assert (Hk : forall ps p,
             (if truthy (Dict.get p (tally ps))
              then Nat.ltb (count_value (Dict.get p (tally ps))) 2 else true)
             = Nat.ltb (count p ps) 2).
  { intros ps p. unfold tally. rewrite get_map_key.
    destruct (In_dec string_dec p (first_occurrences ps)) as [Hin|Hout].
    - pose proof (proj1 (count_In _ _) (proj1 (In_first_occurrences _ _) Hin)) as Hpos.
      destruct (count p ps); [lia|reflexivity].
    - destruct (count p ps) eqn:Hc; [reflexivity|].
      exfalso. apply Hout, In_first_occurrences, count_In. lia. }
  unfold keep_message, counted, CODES, aggregated.
  cbn [map fst snd template Dict.get].
  destruct (String.eqb_spec (code m) ACCESSOR_NON_UNIT) as [E1|N1].
  - cbn [pointerCounts negb orb]. rewrite Hk, occurrences_count, E1. reflexivity.
  - destruct (String.eqb_spec (code m) ACCESSOR_ANIMATION_INPUT_NON_INCREASING) as [E2|N2].
    + cbn [pointerCounts negb orb]. rewrite Hk, occurrences_count, E2. reflexivity.
    + reflexivity.
Qed.

Lemma fold_left_push {A B : Type} (g : B -> A) (l : list B) (acc : list A) :
  fold_left (fun xs y => xs ++ [g y]) l acc = acc ++ map g l.
Proof.
  revert acc. induction l as [|y l IH]; intros acc; simpl.
  - now rewrite app_nil_r.
  - rewrite IH, <- app_assoc. reflexivity.
Qed.

Lemma keys_tally ps : Dict.keys (tally ps) = first_occurrences ps.
Proof.
  unfold Dict.keys, tally. rewrite map_map. simpl. apply map_id.
Qed.

Lemma get_tally p ps :
  In p (first_occurrences ps) -> Dict.get p (tally ps) = Some (count p ps).
Proof.
  intros Hin. unfold tally. rewrite get_map_key.
  destruct (In_dec string_dec p (first_occurrences ps)); [reflexivity|contradiction].
Qed.

(** Case analysis on which of the two aggregated codes [c] is. *)
Ltac aggregated_cases H :=
  unfold aggregated in H; apply orb_true_iff in H;
  destruct H as [H|H]; apply String.eqb_eq in H; subst.

Lemma push_pointers_counted c errors errs :
  aggregated c = true ->
  push_pointers (counted errors) errs c = errs ++ synthetics c errors.
Proof.
  intros Hc.
  assert (Hget : Dict.get c (counted errors)
                 = Some (mkCodeEntry (template_of c) (tally (pointers_with c errors)))).
  { aggregated_cases Hc; reflexivity. }
  unfold push_pointers. rewrite Hget. cbn [pointerCounts template].
  rewrite fold_left_push, keys_tally. f_equal. unfold synthetics.
  apply map_ext_in. intros p Hp. rewrite get_tally by assumption.
  unfold synthetic. cbn [JsString.of_count]. now rewrite occurrences_count.
Qed.

(** Closed form of the aggregation step. *)
Lemma groupMessages_closed_form errors :
  groupMessages errors =
  retained errors
  ++ synthetics ACCESSOR_NON_UNIT errors
  ++ synthetics ACCESSOR_ANIMATION_INPUT_NON_INCREASING errors.
Proof.
  unfold groupMessages.
  change CODES with (counted []). rewrite fold_count_message. simpl app.
  assert (Hkept : List.filter (keep_message (counted errors)) errors = retained errors).
  { unfold retained. apply List.filter_ext. intros m. apply keep_message_counted. }
  rewrite Hkept.
  change (Dict.keys (counted errors))
    with [ACCESSOR_NON_UNIT; ACCESSOR_ANIMATION_INPUT_NON_INCREASING].
  cbn [fold_left]. rewrite !push_pointers_counted by reflexivity.
  now rewrite <- app_assoc.
Qed.


(** ** Error aggregation *)

Lemma occurrences_app c p l1 l2 :
  occurrences c p (l1 ++ l2) = occurrences c p l1 + occurrences c p l2.
Proof. unfold occurrences. now rewrite List.filter_app, length_app. Qed.

Lemma occurrences_retained c p errors :
  aggregated c = true -> 2 <= occurrences c p errors ->
  occurrences c p (retained errors) = 0.
Proof.
  intros Hc Hn. unfold retained.
  set (n := occurrences c p errors) in *.
  assert (H : forall l,
             occurrences c p
               (List.filter
                  (fun m => negb (aggregated (code m))
                            || Nat.ltb (occurrences (code m) (pointer m) errors) 2) l) = 0).
  { induction l as [|m l IH]; [reflexivity|]. simpl.
    destruct (negb (aggregated (code m))
              || Nat.ltb (occurrences (code m) (pointer m) errors) 2) eqn:Hk;
      [|exact IH].
    unfold occurrences at 1. simpl.
    destruct (String.eqb_spec (code m) c) as [Ec|Nc]; [|exact IH].
    destruct (String.eqb_spec (pointer m) p) as [Ep|Np]; [|exact IH].
    exfalso. rewrite Ec, Ep, Hc in Hk. simpl in Hk.
    apply Nat.ltb_lt in Hk. subst n. lia. }
  apply H.
Qed.

Lemma occurrences_synthetics_same c p errors :
  occurrences c p (synthetics c errors) =
  if Nat.ltb 0 (occurrences c p errors) then 1 else 0.
Proof.
  unfold synthetics. rewrite (occurrences_count c p errors).
  set (ps := pointers_with c errors).
  assert (H : forall l, List.NoDup l ->
             occurrences c p
               (map (fun q => synthetic c (template_of c) q (occurrences c q errors)) l)
             = if In_dec string_dec p l then 1 else 0).
  { induction 1 as [|q l Hq Hnd IH]; [reflexivity|].
    unfold occurrences in *. simpl. rewrite String.eqb_refl. simpl.
    destruct (String.eqb_spec q p) as [->|Hqp]; simpl.
    - destruct (string_dec p p); [|congruence]. rewrite IH.
      destruct (In_dec string_dec p l); [contradiction|reflexivity].
    - rewrite IH. destruct (string_dec q p); [congruence|].
      destruct (In_dec string_dec p l); reflexivity. }
  rewrite H by apply NoDup_first_occurrences.
  destruct (In_dec string_dec p (first_occurrences ps)) as [Hin|Hout].
  - pose proof (proj1 (count_In _ _) (proj1 (In_first_occurrences _ _) Hin)) as Hpos.
    destruct (count p ps); [lia|reflexivity].
  - destruct (count p ps) eqn:Hc; [reflexivity|].
    exfalso. apply Hout, In_first_occurrences, count_In. lia.
Qed.

Lemma occurrences_synthetics_other c c' p errors :
  c <> c' -> occurrences c p (synthetics c' errors) = 0.
Proof.
  intros Hne. unfold synthetics, occurrences.
  induction (first_occurrences (pointers_with c' errors)) as [|q l IH];
    [reflexivity|].
  simpl. destruct (String.eqb_spec c' c); [congruence|exact IH].
Qed.

Lemma In_synthetics c p errors :
  0 < occurrences c p errors ->
  In (synthetic c (template_of c) p (occurrences c p errors)) (synthetics c errors).
Proof.
  intros Hpos. unfold synthetics.
  apply (in_map (fun q => synthetic c (template_of c) q (occurrences c q errors))).
  apply In_first_occurrences, count_In. now rewrite <- occurrences_count.
Qed.

(** Repeated messages of an aggregated code: after the step exactly one
    message has that code and pointer, and it is the synthetic one. *)
Lemma repeated_messages_aggregated c p errors :
  aggregated c = true -> 2 <= occurrences c p errors ->
  occurrences c p (groupMessages errors) = 1
  /\ In (synthetic c (template_of c) p (occurrences c p errors))
        (groupMessages errors).
Proof.
  intros Hc Hn. rewrite groupMessages_closed_form. split.
  - rewrite !occurrences_app, occurrences_retained by assumption.
    aggregated_cases Hc.
    + rewrite occurrences_synthetics_same, occurrences_synthetics_other
        by discriminate.
      destruct (Nat.ltb_spec 0 (occurrences ACCESSOR_NON_UNIT p errors)); lia.
    + rewrite occurrences_synthetics_same, occurrences_synthetics_other
        by discriminate.
      destruct (Nat.ltb_spec 0
                  (occurrences ACCESSOR_ANIMATION_INPUT_NON_INCREASING p errors)); lia.
  - rewrite !in_app_iff. aggregated_cases Hc.
    + right; left. apply In_synthetics. lia.
    + right; right. apply In_synthetics. lia.
Qed.

Lemma occurrences_retained_few c p errors :
  occurrences c p errors < 2 ->
  occurrences c p (retained errors) = occurrences c p errors.
Proof.
  intros Hn. unfold retained.
  set (n := occurrences c p errors) in Hn.
  assert (H : forall l,
             occurrences c p
               (List.filter
                  (fun m => negb (aggregated (code m))
                            || Nat.ltb (occurrences (code m) (pointer m) errors) 2) l)
             = occurrences c p l).
  { induction l as [|m l IH]; [reflexivity|]. simpl.
    destruct (negb (aggregated (code m))
              || Nat.ltb (occurrences (code m) (pointer m) errors) 2) eqn:Hk.
    - unfold occurrences in *. simpl.
      destruct (String.eqb (code m) c && String.eqb (pointer m) p); simpl;
        now rewrite IH.
    - rewrite IH. unfold occurrences at 2. simpl.
      destruct (String.eqb_spec (code m) c) as [Ec|Nc]; [|reflexivity].
      destruct (String.eqb_spec (pointer m) p) as [Ep|Np]; [|reflexivity].
      exfalso. rewrite Ec, Ep in Hk. apply orb_false_iff in Hk.
      destruct Hk as [_ Hk]. apply Nat.ltb_ge in Hk. subst n. lia. }
  apply H.
Qed.

(** A single message of an aggregated code stays, and a synthetic message
    with the count 1 is pushed as well. *)
Lemma single_message_duplicated c p errors :
  aggregated c = true -> occurrences c p errors = 1 ->
  occurrences c p (groupMessages errors) = 2
  /\ In (synthetic c (template_of c) p 1) (groupMessages errors).
Proof.
  intros Hc Hn. rewrite groupMessages_closed_form. split.
  - rewrite !occurrences_app, occurrences_retained_few, Hn by lia.
    aggregated_cases Hc;
      rewrite occurrences_synthetics_same, occurrences_synthetics_other, Hn
        by discriminate; reflexivity.
  - rewrite <- Hn. rewrite !in_app_iff. aggregated_cases Hc.
    + right; left. apply In_synthetics. lia.
    + right; right. apply In_synthetics. lia.
Qed.

(** A second run never leaves the result of the first alone when an
    aggregated code occurs: the run turns one message of a pair into two
    and two or more into one. *)
Lemma second_run_changes_result c p errors :
  aggregated c = true -> 1 <= occurrences c p errors ->
  groupMessages (groupMessages errors) <> groupMessages errors.
Proof.
  intros Hc Hn Heq.
  destruct (Nat.eq_dec (occurrences c p errors) 1) as [H1|H1].
  - destruct (single_message_duplicated c p errors Hc H1) as [Hout _].
    assert (Hge : 2 <= occurrences c p (groupMessages errors)) by lia.
    destruct (repeated_messages_aggregated c p (groupMessages errors) Hc Hge)
      as [Hout2 _].
    rewrite Heq in Hout2. lia.
  - assert (Hge : 2 <= occurrences c p errors) by lia.
    destruct (repeated_messages_aggregated c p errors Hc Hge) as [Hout _].
    destruct (single_message_duplicated c p (groupMessages errors) Hc Hout)
      as [Hout2 _].
    rewrite Heq in Hout2. lia.
Qed.

(** C1: for a (code, pointer) pair of an aggregated code that occurs at
    least twice, the individual messages are replaced by one synthetic
    message with the count in its text, and a pair that occurs once is left
    untouched.  The code does the first; at one occurrence of
    [ACCESSOR_NON_UNIT] at [/meshes/0] it keeps the message and pushes a
    synthetic message with the count 1 after it, so the sequence is not left
    untouched. *)
Theorem groupMessages_threshold :
  groupMessages [err ACCESSOR_NON_UNIT "/meshes/0"; err ACCESSOR_NON_UNIT "/meshes/0"]
  = [mkMessage ACCESSOR_NON_UNIT "/meshes/0" None
       "2 accessor elements not of unit length: 0. [AGGREGATED]"]
  /\ groupMessages [err ACCESSOR_NON_UNIT "/meshes/0"]
     = [err ACCESSOR_NON_UNIT "/meshes/0";
        mkMessage ACCESSOR_NON_UNIT "/meshes/0" None
          "1 accessor elements not of unit length: 0. [AGGREGATED]"]
  /\ groupMessages [err ACCESSOR_NON_UNIT "/meshes/0"]
     <> [err ACCESSOR_NON_UNIT "/meshes/0"].
Proof.
  split; [reflexivity|]. split; [reflexivity|]. discriminate.
Qed.


Lemma filter_sublist {A : Type} (f : A -> bool) (l : list A) :
  sublist (List.filter f l) l.
Proof.
  induction l as [|x l IH]; simpl; [constructor|].
  destruct (f x); now constructor.
Qed.

(** C10: the synthetic messages come after all the messages that are kept,
    at the end of the errors sequence: first those of [ACCESSOR_NON_UNIT],
    then those of [ACCESSOR_ANIMATION_INPUT_NON_INCREASING], each group
    with one message per pointer in the order in which the pointers first
    appear; the kept messages are messages of the original sequence, in
    their order. *)
Theorem synthetic_messages_appended (errors : list Message) :
  groupMessages errors =
  retained errors
  ++ (synthetics ACCESSOR_NON_UNIT errors
      ++ synthetics ACCESSOR_ANIMATION_INPUT_NON_INCREASING errors)
  /\ sublist (retained errors) errors
  /\ (forall c, map pointer (synthetics c errors)
                = first_occurrences (pointers_with c errors))
  /\ (forall c m, In m (synthetics c errors) -> code m = c /\ severity m = None).
Proof.
  split; [apply groupMessages_closed_form|]. split; [apply filter_sublist|]. split.
  - intros c. unfold synthetics. rewrite map_map. apply map_id.
  - intros c m Hin. unfold synthetics in Hin. apply in_map_iff in Hin.
    destruct Hin as (p & <- & _). split; reflexivity.
Qed.

(** ** Severity bucketing *)

Lemma computeMaxSeverity_cases (i : Issues) :
  computeMaxSeverity i =
  if Z.ltb 0 (numErrors i) then 0%Z
  else if Z.ltb 0 (numWarnings i) then 1%Z
  else if Z.ltb 0 (numInfos i) then 2%Z
  else if Z.ltb 0 (numHints i) then 3%Z
  else (-1)%Z.
Proof.
  unfold computeMaxSeverity, SEVERITY_MAP. cbn [forEach_indexed].
  change (issues_get i ("num" ++ "Errors")) with (Some (numErrors i)).
  change (issues_get i ("num" ++ "Warnings")) with (Some (numWarnings i)).
  change (issues_get i ("num" ++ "Infos")) with (Some (numInfos i)).
  change (issues_get i ("num" ++ "Hints")) with (Some (numHints i)).
  cbn [positive].
  destruct (Z.ltb 0 (numErrors i)), (Z.ltb 0 (numWarnings i)),
    (Z.ltb 0 (numInfos i)), (Z.ltb 0 (numHints i)); reflexivity.
Qed.

(** C7: [maxSeverity] is the index of the first of the counts of errors,
    warnings, infos and hints that is greater than zero, and -1 when none
    is; the counts 0, 3, 0, 1 give 1. *)
Theorem maxSeverity_first_positive :
  (forall i : Issues,
      computeMaxSeverity i =
      first_positive 0 [numErrors i; numWarnings i; numInfos i; numHints i])
  /\ (forall i : Issues,
         numErrors i = 0%Z /\ numWarnings i = 0%Z /\ numInfos i = 0%Z
         /\ numHints i = 0%Z -> computeMaxSeverity i = (-1)%Z)
  /\ (forall (r : RawReport) (st : State),
         option_map maxSeverity (report (setReport r st))
         = Some (first_positive 0 [numErrors (issues r); numWarnings (issues r);
                                   numInfos (issues r); numHints (issues r)]))
  /\ (forall msgs, computeMaxSeverity (mkIssues msgs 0 3 0 1) = 1%Z).
Proof.
  split; [|split; [|split]].
  - intros i. rewrite computeMaxSeverity_cases. reflexivity.
  - intros i (He & Hw & Hi & Hh). rewrite computeMaxSeverity_cases.
    rewrite He, Hw, Hi, Hh. reflexivity.
  - intros r st. unfold setReport, showToggle. cbn [report option_map maxSeverity].
    rewrite computeMaxSeverity_cases. reflexivity.
  - intros msgs. reflexivity.
Qed.

(** ** Partitioning *)

Lemma severity_is_true n m : severity_is n m = true <-> severity m = Some n.
Proof.
  unfold severity_is. destruct (severity m) as [s|].
  - rewrite Z.eqb_eq. split; congruence.
  - split; discriminate.
Qed.


Lemma In_bucket n m msgs :
  In m (List.filter (severity_is n) msgs) <-> In m msgs /\ severity m = Some n.
Proof. now rewrite List.filter_In, severity_is_true. Qed.



(** ** Generator identification *)

Lemma lacks_not_In c s :
  JsString.lacks c s = true <-> ~ In c (list_ascii_of_string s).
Proof.
  induction s as [|d s IH]; simpl; [tauto|].
  destruct (Ascii.eqb_spec c d) as [->|Hcd].
  - split; [discriminate|intros H; exfalso; apply H; now left].
  - rewrite IH. split; [intros H [?|?]; [congruence|tauto]|tauto].
Qed.

Lemma glob_test_star pat s :
  glob_test (String "*"%char pat) s =
  (glob_test pat s
   || match s with
      | EmptyString => false
      | String _ s' => glob_test (String "*"%char pat) s'
      end).
Proof. destruct s; reflexivity. Qed.

Lemma glob_test_char c pat s :
  c <> "*"%char ->
  glob_test (String c pat) s =
  match s with
  | EmptyString => false
  | String d s' => Ascii.eqb c d && glob_test pat s'
  end.
Proof.
  intros Hc. simpl. destruct (Ascii.eqb_spec c "*"%char); [congruence|reflexivity].
Qed.

Lemma glob_test_star_split pat s :
  glob_test (String "*"%char pat) s = true <->
  exists s1 s2, s = (s1 ++ s2)%string /\ glob_test pat s2 = true.
Proof.
  induction s as [|d s IH]; rewrite glob_test_star.
  - rewrite orb_false_r. split.
    + intros H. now exists "", "".
    + intros (s1 & s2 & Heq & H). destruct s1; [|discriminate].
      change (EmptyString = s2) in Heq. congruence.
  - rewrite orb_true_iff, IH. split.
    + intros [H|(s1 & s2 & -> & H)].
      * now exists "", (String d s).
      * now exists (String d s1), s2.
    + intros (s1 & s2 & Heq & H). destruct s1 as [|d' s1].
      * left. change (String d s = s2) in Heq. congruence.
      * right. change (String d s = String d' (s1 ++ s2)%string) in Heq.
        injection Heq as Hd Hs. now exists s1, s2.
Qed.

Lemma glob_test_matches pat s : glob_test pat s = true <-> glob_matches pat s.
Proof.
  split.
  - revert s. induction pat as [|c pat IH]; intros s H.
    + destruct s; [constructor|discriminate].
    + destruct (ascii_dec c "*"%char) as [->|Hc].
      * apply glob_test_star_split in H. destruct H as (s1 & s2 & -> & H).
        constructor. now apply IH.
      * rewrite glob_test_char in H by assumption.
        destruct s as [|d s]; [discriminate|].
        apply andb_true_iff in H. destruct H as [Hcd H].
        apply Ascii.eqb_eq in Hcd. subst d. constructor; auto.
  - induction 1 as [|c pat s Hc _ IH|pat s1 s2 _ IH].
    + reflexivity.
    + rewrite glob_test_char by assumption. now rewrite Ascii.eqb_refl, IH.
    + apply glob_test_star_split. now exists s1, s2.
Qed.

Lemma find_ref_Some {A : Type} (pred : A -> bool) (l : list A) (i : nat) :
  find_ref pred l = Some i <->
  exists x, l !! i = Some x /\ pred x = true
            /\ forall j y, j < i -> l !! j = Some y -> pred y = false.
Proof.
  revert i. induction l as [|a l IH]; intros i; simpl.
  - split; [discriminate|]. intros (x & Hx & _). discriminate.
  - destruct (pred a) eqn:Ha.
    + split.
      * intros [= <-]. exists a. repeat split; auto. intros j y Hj. lia.
      * intros (x & Hx & Hp & Hbefore). destruct i as [|i]; [reflexivity|].
        specialize (Hbefore 0 a). simpl in Hbefore.
        rewrite Hbefore in Ha by (auto; lia). discriminate.
    + destruct (find_ref pred l) as [k|] eqn:Hf; simpl.
      * split.
        -- intros [= <-]. destruct (proj1 (IH k) eq_refl) as (x & Hx & Hp & Hb).
           exists x. repeat split; auto.
           intros [|j] y Hj Hy; simpl in Hy; [congruence|].
           apply (Hb j); auto; lia.
        -- intros (x & Hx & Hp & Hb). destruct i as [|i]; simpl in Hx.
           ++ congruence.
           ++ f_equal. assert (Hi : Some k = Some i); [|congruence].
              apply IH. exists x. repeat split; auto.
              intros j y Hj Hy. apply (Hb (S j)); auto; lia.
      * split; [discriminate|].
        intros (x & Hx & Hp & Hb). destruct i as [|i]; simpl in Hx.
        -- congruence.
        -- assert (Hi : None = Some i); [|discriminate].
           apply IH. exists x. repeat split; auto.
           intros j y Hj Hy. apply (Hb (S j)); auto; lia.
Qed.

Lemma find_ref_None {A : Type} (pred : A -> bool) (l : list A) :
  find_ref pred l = None <-> forall x, In x l -> pred x = false.
Proof.
  induction l as [|a l IH]; simpl.
  - split; [intros _ x []|reflexivity].
  - destruct (pred a) eqn:Ha.
    + split; [discriminate|]. intros H. rewrite H in Ha by now left. discriminate.
    + destruct (find_ref pred l); simpl.
      * split; [discriminate|]. intros H.
        assert (Hn : Some n = None); [|discriminate]. apply IH. auto.
      * split; [|reflexivity]. intros _ x [<-|Hx]; [assumption|].
        now apply (proj1 IH).
Qed.

(** C8: the registry is scanned in order and the first matching entry
    wins; an entry whose pattern has no wildcard matches exactly when the
    pattern equals the generator string, an entry with a wildcard exactly
    when the string matches the pattern as a glob.  The pattern
    [COLLADA2GLTF*] matches [COLLADA2GLTF v2.1.4] and does not match
    [Blender]. *)
Theorem generator_identification :
  (forall tool g,
      JsString.lacks "*"%char (Tool.generator tool) = true ->
      (tool_matches g tool = true <-> Tool.generator tool = g))
  /\ (forall tool g,
         JsString.lacks "*"%char (Tool.generator tool) = false ->
         (tool_matches g tool = true <-> glob_matches (Tool.generator tool) g))
  /\ (forall (reg : list Tool.t) g i,
         find_ref (tool_matches g) reg = Some i <->
         exists tool, reg !! i = Some tool /\ tool_matches g tool = true
                      /\ forall j earlier, j < i -> reg !! j = Some earlier ->
                                           tool_matches g earlier = false)
  /\ (forall (reg : list Tool.t) g,
         find_ref (tool_matches g) reg = None <->
         forall tool, In tool reg -> tool_matches g tool = false)
  /\ (forall r st,
         option_map generator (report (setReport r st))
         = Some (find_ref (tool_matches (match info_generator r with
                                         | Some g => g
                                         | None => ""
                                         end)) (registry st)))
  /\ (forall n a, tool_matches "COLLADA2GLTF v2.1.4" (Tool.mk "COLLADA2GLTF*" n a) = true)
  /\ (forall n a, tool_matches "Blender" (Tool.mk "COLLADA2GLTF*" n a) = false).
Proof.
  repeat split.
  - unfold tool_matches. rewrite H. apply String.eqb_eq.
  - unfold tool_matches. rewrite H. intros ->. apply String.eqb_refl.
  - unfold tool_matches. rewrite H. apply glob_test_matches.
  - unfold tool_matches. rewrite H. apply glob_test_matches.
  - apply find_ref_Some.
  - apply find_ref_Some.
  - apply find_ref_None.
  - apply find_ref_None.
Qed.

(** ** Generator display name *)

Lemma rename_differs tool :
  Tool.name tool <> Tool.author tool ->
  Tool.name (rename tool) = (Tool.name tool ++ " by " ++ Tool.author tool)%string.
Proof.
  intros Hne. unfold rename.
  destruct (String.eqb_spec (Tool.name tool) (Tool.author tool)); [congruence|].
  reflexivity.
Qed.

Lemma rename_same tool :
  Tool.name tool = Tool.author tool -> rename tool = tool.
Proof.
  intros He. unfold rename. now rewrite He, String.eqb_refl.
Qed.

Lemma length_append (s1 s2 : string) :
  String.length (s1 ++ s2)%string = String.length s1 + String.length s2.
Proof.
  induction s1 as [|c s1 IH]; [reflexivity|].
  change (S (String.length (s1 ++ s2)%string) = S (String.length s1 + String.length s2)).
  now rewrite IH.
Qed.

(** The name of the entry is overwritten, so a second run finds a name that
    still differs from the author and extends it again. *)
Lemma rename_twice tool :
  Tool.name tool <> Tool.author tool ->
  Tool.name (rename (rename tool))
  = ((Tool.name tool ++ " by " ++ Tool.author tool) ++ " by " ++ Tool.author tool)%string.
Proof.
  intros Hne.
  assert (Hr : rename tool = Tool.mk (Tool.generator tool)
                 (Tool.name tool ++ " by " ++ Tool.author tool)%string
                 (Tool.author tool)).
  { unfold rename.
    destruct (String.eqb_spec (Tool.name tool) (Tool.author tool)); [congruence|].
    reflexivity. }
  rewrite Hr. rewrite rename_differs; [reflexivity|]. cbn [Tool.name Tool.author].
  intros Heq. apply (f_equal String.length) in Heq.
  rewrite !length_append in Heq. cbn in Heq.
  assert (Hname : Tool.name tool = EmptyString).
  { destruct (Tool.name tool); [reflexivity|]. cbn in Heq. lia. }
  rewrite Hname in Heq. cbn in Heq. lia.
Qed.

(** C3: a matching registry entry whose name differs from its author is
    displayed as name, [by], author, an entry whose name is its author
    keeps its name, and a second [setReport] for the same generator does
    not append the author again.  The code does the first two; it writes
    the new name into the registry entry, so the second [setReport] for the
    entry named [Foo] of the author [Bar] displays [Foo by Bar by Bar]. *)
Theorem generator_name_across_reports :
  let reg := [Tool.mk "Foo*" "Foo" "Bar"; Tool.mk "Solo" "Solo" "Solo"] in
  let r := mkRawReport (Some "Foo 1.0") no_issues in
  displayed_generator_name (setReport r (initial_state reg)) = Some "Foo by Bar"
  /\ displayed_generator_name
       (setReport (mkRawReport (Some "Solo") no_issues) (initial_state reg))
     = Some "Solo"
  /\ displayed_generator_name (setReport r (setReport r (initial_state reg)))
     = Some "Foo by Bar by Bar".
Proof. repeat split; vm_compute; reflexivity. Qed.

(** ** Asset resolver *)

Lemma replace_unfold (pat rep s : string) :
  JsString.replace pat rep s =
  if JsString.startsWith pat s
  then String.append rep (JsString.drop (String.length pat) s)
  else match s with
       | EmptyString => EmptyString
       | String c s' => String c (JsString.replace pat rep s')
       end.
Proof. destruct s; reflexivity. Qed.

Lemma prefix_append (q t : string) : String.prefix q (q ++ t)%string = true.
Proof.
  induction q as [|c q IH]; [now destruct t|].
  change (String.prefix (String c q) (String c (q ++ t)%string) = true).
  cbn [String.prefix]. destruct (ascii_dec c c); [apply IH|congruence].
Qed.

Lemma drop_append (q t : string) :
  JsString.drop (String.length q) (q ++ t)%string = t.
Proof.
  induction q as [|c q IH]; [reflexivity|].
  change (JsString.drop (String.length q) (q ++ t)%string = t). apply IH.
Qed.

(** When the decoded URI starts with the base directory, that prefix is
    what [replace] removes. *)
Lemma replace_prefix (p s : string) :
  JsString.replace p "" (p ++ s)%string = s.
Proof.
  rewrite replace_unfold. unfold JsString.startsWith.
  rewrite prefix_append, drop_append. reflexivity.
Qed.

(** The base directory is removed where it first occurs: at the front of
    the URI, or further in when the URI does not start with it. *)
Lemma normalizeURL_examples :
  normalizeURL "models/" "" "models/tex.png" = "tex.png"
  /\ normalizeURL "./" "dir/" "./tex.png" = "dir/tex.png"
  /\ normalizeURL "https://host/a/" "" "/tex.png" = "tex.png"
  /\ normalizeURL "/" "" "tex/img.png" = "teximg.png".
Proof. repeat split. Qed.

Section ResolverFacts.
Variable host : Host.
Variables (uri rootFile rootPath decoded : string).
Variable assetMap : gmap string File.
Variable b : Browser.
Hypothesis Hdecoded : decodeURI host uri = Some decoded.

(** The call for a key of the asset map, whatever the read gives. *)
Lemma resolve_hit object :
  assetMap !! normalizeURL (extractUrlBase host rootFile) rootPath decoded = Some object ->
  resolveExternalResource host uri rootFile rootPath assetMap b =
  let url := object_url (created b) in
  let b1 := mkBrowser (<[url := object]> (objectURLs b)) (S (created b)) (requests b) in
  if available object
  then if intact object
       then (Fulfilled (contents object), revokeObjectURL url b1)
       else (Rejected (TypeError "The file could not be read"), b1)
  else (Rejected (TypeError "Failed to fetch"), b1).
Proof.
  intros Hkey. unfold resolveExternalResource.
  rewrite Hdecoded, Hkey. unfold createObjectURL, and_then, fetch, arrayBuffer.
  cbn [objectURLs created requests]. rewrite lookup_insert_eq.
  unfold read_file. destruct (available object); [|reflexivity].
  cbn [body]. destruct (intact object); reflexivity.
Qed.

(** The call for a URI that is not a key of the asset map. *)
Lemma resolve_miss :
  assetMap !! normalizeURL (extractUrlBase host rootFile) rootPath decoded = None ->
  objectURLs b !! (extractUrlBase host rootFile ++ uri)%string = None ->
  resolveExternalResource host uri rootFile rootPath assetMap b =
  (match network host (extractUrlBase host rootFile ++ uri)%string with
   | Fulfilled response => body response
   | Rejected e => Rejected e
   end,
   mkBrowser (objectURLs b) (created b)
             (requests b ++ [(extractUrlBase host rootFile ++ uri)%string])).
Proof.
  intros Hkey Hurl. unfold resolveExternalResource.
  rewrite Hdecoded, Hkey. unfold and_then, fetch, arrayBuffer. rewrite Hurl.
  destruct (network host _) as [response|e]; [|reflexivity].
  destruct (body response); reflexivity.
Qed.

(** When the file cannot be opened or cannot be read to its end, the promise
    is rejected and the object URL is still live after the call. *)
Lemma object_url_outlives_failed_read object :
  assetMap !! normalizeURL (extractUrlBase host rootFile) rootPath decoded = Some object ->
  available object && intact object = false ->
  (exists e, fst (resolveExternalResource host uri rootFile rootPath assetMap b)
             = Rejected e)
  /\ objectURLs (snd (resolveExternalResource host uri rootFile rootPath assetMap b))
     !! object_url (created b) = Some object.
Proof.
  intros Hkey Hfail. rewrite (resolve_hit object Hkey). cbv zeta.
  destruct (available object); [destruct (intact object); [discriminate|]|];
    (split; [eexists; reflexivity|]); cbn [snd objectURLs]; apply lookup_insert_eq.
Qed.
End ResolverFacts.

(** C4: an object URL created for a key of the asset map is revoked on
    every exit path of the call, also when the fetch or the reading of the
    bytes fails.  The code revokes it in the handler of line 73 only, which
    a rejection skips: here the dropped file can no longer be opened, the
    call is rejected, and the object URL it created is still live
    afterwards. *)
Lemma object_url_live_after_rejection :
  let assetMap : gmap string File := {[ "models/tex.png" := lost_texture ]} in
  let out := resolveExternalResource sample_host "./tex.png" "blob:root" "models/"
               assetMap empty_browser in
  fst out = Rejected (TypeError "Failed to fetch")
  /\ objectURLs (snd out) !! object_url 0 = Some lost_texture
  /\ objectURLs (snd out) !! object_url 0 <> None.
Proof.
  intros assetMap out.
  assert (Hlive : objectURLs (snd out) !! object_url 0 = Some lost_texture)
    by (vm_compute; reflexivity).
  split; [vm_compute; reflexivity|]. split; [exact Hlive|].
  rewrite Hlive. discriminate.
Qed.

(** The exit of line 73: when the fetch and the reading of the bytes
    succeed, the promise is fulfilled with the bytes of the file and the
    object URL of the call is live no more. *)
Lemma object_url_revoked_after_read
  (host : Host) (uri rootFile rootPath decoded : string)
  (assetMap : gmap string File) (b : Browser) (object : File) :
  decodeURI host uri = Some decoded ->
  assetMap !! normalizeURL (extractUrlBase host rootFile) rootPath decoded = Some object ->
  available object = true -> intact object = true ->
  let out := resolveExternalResource host uri rootFile rootPath assetMap b in
  fst out = Fulfilled (contents object)
  /\ objectURLs (snd out) !! object_url (created b) = None
  /\ objectURLs (snd out) = delete (object_url (created b)) (objectURLs b).
Proof.
  intros Hdecoded Hkey Hav Hin out. subst out.
  rewrite (resolve_hit host uri rootFile rootPath decoded assetMap b Hdecoded object Hkey).
  cbv zeta. rewrite Hav, Hin. unfold revokeObjectURL. cbn [fst snd objectURLs].
  split; [reflexivity|]. split.
  - apply lookup_delete_eq.
  - apply delete_insert_eq.
Qed.

Lemma object_url_revoked_after_read_witness :
  let assetMap : gmap string File := {[ "models/tex.png" := texture ]} in
  let out := resolveExternalResource sample_host "./tex.png" "blob:root" "models/"
               assetMap empty_browser in
  fst out = Fulfilled (contents texture)
  /\ objectURLs (snd out) !! object_url 0 = None
  /\ objectURLs (snd out) = delete (object_url 0) ∅.
Proof.
  intros assetMap.
  apply (object_url_revoked_after_read sample_host "./tex.png" "blob:root"
           "models/" "./tex.png" assetMap empty_browser texture).
  - reflexivity.
  - vm_compute. reflexivity.
  - reflexivity.
  - reflexivity.
Defined.

(** ** Validation runner and presenter *)

Lemma showLightbox_without_report st : report st = None -> showLightbox st = st.
Proof. intros H. unfold showLightbox. now rewrite H. Qed.

Lemma setReportException_state e st :
  report (setReportException e st) = None
  /\ toggle (setReportException e st) = ExceptionView e 0
  /\ hidden (setReportException e st) = false.
Proof. repeat split. Qed.

Lemma setReport_state r st :
  exists normalized tool,
    report (setReport r st) = Some normalized
    /\ toggle (setReport r st) = ReportView normalized tool
    /\ raw normalized = r
    /\ hidden (setReport r st) = false.
Proof. unfold setReport, showToggle. cbn. eauto 10. Qed.

(** C5, as stated: every failure, that of a resource resolution included,
    ends on the exception path, which holds no report.  Here the root file
    is fetched, the request of the validator for [missing.bin] is rejected
    by the resolver, and the validator goes on to its report: the call of
    [validate] ends with a held report, shown by the toggle, and
    [showLightbox] opens it. *)
Lemma resolver_failure_absorbed :
  let st := validate absorbing_host "scene.gltf" "" ∅ (initial_state []) in
  fst (resolveExternalResource absorbing_host "missing.bin" "scene.gltf" "" ∅
         (mkBrowser ∅ 0 ["scene.gltf"]))
  = Rejected (TypeError "Failed to fetch")
  /\ requests (browser st) = ["scene.gltf"; "./missing.bin"]
  /\ (exists normalized,
         report st = Some normalized
         /\ toggle st = ReportView normalized None
         /\ tabs (showLightbox st) = [normalized])
  /\ report st <> None
  /\ showLightbox st <> st.
Proof.
  intros st.
  assert (Hreport : exists normalized,
             report st = Some normalized
             /\ toggle st = ReportView normalized None
             /\ tabs (showLightbox st) = [normalized])
    by (eexists; repeat split; vm_compute; reflexivity).
  split; [vm_compute; reflexivity|]. split; [vm_compute; reflexivity|].
  split; [exact Hreport|].
  destruct Hreport as (normalized & Hheld & _ & Htabs). split.
  - rewrite Hheld. discriminate.
  - intros Heq. rewrite Heq in Htabs. vm_compute in Htabs. discriminate.
Qed.

(** C5, amended: a call of [validate] ends with a normalised report or
    with a captured exception, never with both, as the promise of the chain
    is fulfilled or rejected.  A failure of the fetch of the root file, of
    the reading of its bytes, or a rejection of the promise of the
    validator, be it for a failure of its own or for a failure of the
    resolver that it passes on, ends on the exception path, which holds no
    report, and [showLightbox] then does nothing. *)
Theorem validate_outcome
  (host : Host) (rootFile rootPath : string) (assetMap : gmap string File)
  (st : State) :
  let st' := validate host rootFile rootPath assetMap st in
  let resolver := fun uri => resolveExternalResource host uri rootFile rootPath assetMap in
  ((exists r normalized tool b,
       validation host rootFile rootPath assetMap (browser st) = (Fulfilled r, b)
       /\ report st' = Some normalized /\ raw normalized = r
       /\ toggle st' = ReportView normalized tool)
   \/ (exists e b,
          validation host rootFile rootPath assetMap (browser st) = (Rejected e, b)
          /\ report st' = None /\ toggle st' = ExceptionView e 0
          /\ showLightbox st' = st'))
  /\ (forall e,
         fst (fetch host rootFile (browser st)) = Rejected e ->
         report st' = None /\ toggle st' = ExceptionView e 0)
  /\ (forall response b1 e,
         fetch host rootFile (browser st) = (Fulfilled response, b1) ->
         body response = Rejected e ->
         report st' = None /\ toggle st' = ExceptionView e 0)
  /\ (forall response b1 buffer e,
         fetch host rootFile (browser st) = (Fulfilled response, b1) ->
         body response = Fulfilled buffer ->
         fst (validateBytes host buffer resolver b1) = Rejected e ->
         report st' = None /\ toggle st' = ExceptionView e 0)
  /\ (forall response b1 buffer uri b2 e b3,
         fetch host rootFile (browser st) = (Fulfilled response, b1) ->
         body response = Fulfilled buffer ->
         resolver uri b2 = (Rejected e, b3) ->
         validateBytes host buffer resolver b1 = (Rejected e, b3) ->
         report st' = None /\ toggle st' = ExceptionView e 0
         /\ browser st' = b3)
  /\ (report st' = None -> showLightbox st' = st').
Proof.
  intros st' resolver. subst st'. unfold validate.
  split; [|split; [|split; [|split; [|split]]]].
  - destruct (validation host rootFile rootPath assetMap (browser st)) as [[r|e] b].
    + left. destruct (setReport_state r (mkState (report st) (toggle st) (hidden st)
                                           (registry st) b (tabs st)))
        as (normalized & tool & Hr & Ht & Hraw & _).
      exists r, normalized, tool, b. auto.
    + right. exists e, b. repeat split.
  - intros e Hfetch. unfold validation, and_then.
    destruct (fetch host rootFile (browser st)) as [[response|e'] b1];
      cbn [fst] in Hfetch; [discriminate|].
    injection Hfetch as ->. repeat split.
  - intros response b1 e Hfetch Hbody. unfold validation, and_then, arrayBuffer.
    rewrite Hfetch, Hbody. repeat split.
  - intros response b1 buffer e Hfetch Hbody Hval.
    unfold validation, and_then, arrayBuffer. rewrite Hfetch, Hbody.
    fold resolver.
    destruct (validateBytes host buffer resolver b1) as [[r|e'] b2];
      cbn [fst] in Hval; [discriminate|].
    injection Hval as ->. repeat split.
  - intros response b1 buffer uri b2 e b3 Hfetch Hbody _ Hval.
    unfold validation, and_then, arrayBuffer. rewrite Hfetch, Hbody.
    fold resolver. rewrite Hval. repeat split.
  - apply showLightbox_without_report.
Qed.

(** * Further properties of the controller *)

(** ** Aggregation *)

Lemma filter_all {A : Type} (f : A -> bool) (l : list A) :
  (forall x, In x l -> f x = true) -> List.filter f l = l.
Proof.
  induction l as [|x l IH]; intros H; [reflexivity|]. simpl.
  rewrite (H x) by now left. f_equal. apply IH. intros y Hy. apply H. now right.
Qed.

Lemma filter_none {A : Type} (f : A -> bool) (l : list A) :
  (forall x, In x l -> f x = false) -> List.filter f l = [].
Proof.
  induction l as [|x l IH]; intros H; [reflexivity|]. simpl.
  rewrite (H x) by now left. apply IH. intros y Hy. apply H. now right.
Qed.

Lemma filter_filter_implied {A : Type} (f g : A -> bool) (l : list A) :
  (forall x, f x = true -> g x = true) ->
  List.filter f (List.filter g l) = List.filter f l.
Proof.
  intros H. induction l as [|x l IH]; [reflexivity|]. simpl.
  destruct (g x) eqn:Hg; simpl.
  - destruct (f x); now rewrite IH.
  - destruct (f x) eqn:Hf; [|exact IH]. rewrite (H x Hf) in Hg. discriminate.
Qed.

Lemma List_filter_Permutation {A : Type} (f : A -> bool) (l1 l2 : list A) :
  Permutation l1 l2 -> Permutation (List.filter f l1) (List.filter f l2).
Proof.
  induction 1 as [|x l l' _ IH|x y l|l l' l'' _ IH1 _ IH2]; simpl.
  - constructor.
  - destruct (f x); [now apply perm_skip|assumption].
  - destruct (f x), (f y); try reflexivity. apply perm_swap.
  - now transitivity (List.filter f l').
Qed.

Lemma synthetics_none c errors :
  (forall m, In m errors -> String.eqb (code m) c = false) ->
  synthetics c errors = [].
Proof.
  intros H. unfold synthetics, pointers_with. now rewrite filter_none.
Qed.

Lemma aggregated_false c :
  aggregated c = false ->
  String.eqb c ACCESSOR_NON_UNIT = false
  /\ String.eqb c ACCESSOR_ANIMATION_INPUT_NON_INCREASING = false.
Proof. unfold aggregated. intros H. now apply orb_false_iff in H. Qed.

(** X1: when no message carries one of the two aggregated codes, the
    aggregation step returns the errors sequence as it is. *)
Theorem groupMessages_other_codes_only (errors : list Message) :
  (forall m, In m errors -> aggregated (code m) = false) ->
  groupMessages errors = errors.
Proof.
  intros H. rewrite groupMessages_closed_form.
  rewrite !synthetics_none.
  - rewrite !app_nil_r. unfold retained. apply filter_all.
    intros m Hm. now rewrite (H m Hm).
  - intros m Hm. now apply aggregated_false, H.
  - intros m Hm. now apply aggregated_false, H.
Qed.

Lemma groupMessages_other_codes_only_witness :
  let errors := [err "BUFFER_VIEW_TOO_LONG" "/bufferViews/0";
                 err "UNDEFINED_PROPERTY" "/meshes/0";
                 err "BUFFER_VIEW_TOO_LONG" "/bufferViews/0"] in
  groupMessages errors = errors.
Proof.
  intros errors. apply groupMessages_other_codes_only.
  intros m [<-|[<-|[<-|[]]]]; reflexivity.
Defined.

Lemma synthetics_code c errors m : In m (synthetics c errors) -> code m = c.
Proof.
  unfold synthetics. intros Hin. apply in_map_iff in Hin.
  now destruct Hin as (p & <- & _).
Qed.

(** X2: the messages of every other code pass through the aggregation
    step untouched: none is dropped, none is added, and they keep their
    order. *)
Theorem groupMessages_keeps_other_codes (errors : list Message) :
  List.filter (fun m => negb (aggregated (code m))) (groupMessages errors)
  = List.filter (fun m => negb (aggregated (code m))) errors.
Proof.
  rewrite groupMessages_closed_form, !List.filter_app.
  rewrite (filter_none _ (synthetics ACCESSOR_NON_UNIT errors)).
  - rewrite (filter_none _ (synthetics ACCESSOR_ANIMATION_INPUT_NON_INCREASING errors)).
    + rewrite !app_nil_r. unfold retained. apply filter_filter_implied.
      intros m Hm. now rewrite Hm.
    + intros m Hm. now rewrite (synthetics_code _ _ _ Hm).
  - intros m Hm. now rewrite (synthetics_code _ _ _ Hm).
Qed.

Lemma occurrences_Permutation c p l1 l2 :
  Permutation l1 l2 -> occurrences c p l1 = occurrences c p l2.
Proof.
  intros H. unfold occurrences. apply Permutation_length. now apply List_filter_Permutation.
Qed.

Lemma first_occurrences_Permutation ps1 ps2 :
  Permutation ps1 ps2 ->
  Permutation (first_occurrences ps1) (first_occurrences ps2).
Proof.
  intros H. apply Stdlib.Sorting.Permutation.NoDup_Permutation; try apply NoDup_first_occurrences.
  intros p. rewrite !In_first_occurrences.
  split; apply Permutation_in; [assumption|now symmetry].
Qed.

Lemma synthetics_Permutation c l1 l2 :
  Permutation l1 l2 -> Permutation (synthetics c l1) (synthetics c l2).
Proof.
  intros H. unfold synthetics.
  rewrite (map_ext _ (fun p => synthetic c (template_of c) p (occurrences c p l2)))
    by (intros p; now rewrite (occurrences_Permutation c p l1 l2 H)).
  apply Permutation_map, first_occurrences_Permutation.
  unfold pointers_with. now apply Permutation_map, List_filter_Permutation.
Qed.

(** X3: the aggregation step does not depend on the order of the errors
    beyond the order of its result: rearranged errors give the same
    messages, each as often, with the same counts in the synthetic ones. *)
Theorem groupMessages_Permutation (l1 l2 : list Message) :
  Permutation l1 l2 -> Permutation (groupMessages l1) (groupMessages l2).
Proof.
  intros H. rewrite !groupMessages_closed_form.
  repeat apply Permutation_app; try now apply synthetics_Permutation.
  unfold retained.
  rewrite (List.filter_ext _
             (fun m => negb (aggregated (code m))
                       || Nat.ltb (occurrences (code m) (pointer m) l2) 2))
    by (intros m; now rewrite (occurrences_Permutation _ _ l1 l2 H)).
  now apply List_filter_Permutation.
Qed.

Lemma groupMessages_Permutation_witness :
  let a := err ACCESSOR_NON_UNIT "/accessors/1" in
  let b := err ACCESSOR_NON_UNIT "/accessors/2" in
  Permutation (groupMessages [a; b; a]) (groupMessages [b; a; a]).
Proof.
  intros a b. apply groupMessages_Permutation.
  apply (perm_swap b a [a]).
Defined.

Lemma counting_loop errors : fold_left count_message errors CODES = counted errors.
Proof. change CODES with (counted []). apply fold_count_message. Qed.

Lemma counts_of_aggregated c errors :
  aggregated c = true -> counts_of c errors = tally (pointers_with c errors).
Proof.
  intros Hc. unfold counts_of. rewrite counting_loop.
  aggregated_cases Hc; reflexivity.
Qed.

Lemma counts_of_other c errors : aggregated c = false -> counts_of c errors = [].
Proof.
  intros Hc. unfold counts_of. rewrite counting_loop.
  destruct (aggregated_false c Hc) as [H1 H2].
  unfold counted, CODES. cbn [map fst snd Dict.get]. now rewrite H1, H2.
Qed.

Lemma total_map (f : string -> nat) (l : list string) :
  total (map (fun p => (p, f p)) l) = fold_right (fun p acc => f p + acc) 0 l.
Proof. induction l as [|p l IH]; simpl; [reflexivity|]. now rewrite IH. Qed.

Lemma sum_split (f : string -> nat) (p : string) (l : list string) :
  List.NoDup l ->
  fold_right (fun q acc => f q + acc) 0 l =
  (if In_dec string_dec p l then f p else 0)
  + fold_right (fun q acc => f q + acc) 0
      (List.filter (fun q => negb (String.eqb q p)) l).
Proof.
  induction 1 as [|q l Hq Hnd IH]; [reflexivity|]. simpl.
  destruct (String.eqb_spec q p) as [->|Hqp]; simpl.
  - destruct (string_dec p p); [|congruence].
    rewrite IH. destruct (In_dec string_dec p l); [contradiction|]. lia.
  - destruct (string_dec q p); [congruence|]. rewrite IH.
    destruct (In_dec string_dec p l); lia.
Qed.

Lemma count_cons p q ps :
  count p (q :: ps) = (if String.eqb q p then 1 else 0) + count p ps.
Proof. unfold count. simpl. now destruct (String.eqb q p). Qed.

Lemma total_tally ps : total (tally ps) = length ps.
Proof.
  unfold tally. rewrite total_map.
  induction ps as [|p ps IH]; [reflexivity|].
  cbn [first_occurrences fold_right length].
  rewrite count_cons, String.eqb_refl.
  rewrite (sum_split (fun q => count q ps) p (first_occurrences ps)) in IH
    by apply NoDup_first_occurrences.
  assert (Hrest :
            fold_right (fun q acc => count q (p :: ps) + acc) 0
              (List.filter (fun q => negb (String.eqb q p)) (first_occurrences ps))
            = fold_right (fun q acc => count q ps + acc) 0
                (List.filter (fun q => negb (String.eqb q p)) (first_occurrences ps))).
  { clear IH. induction (first_occurrences ps) as [|q l IHl]; [reflexivity|]. simpl.
    destruct (String.eqb_spec q p) as [->|Hqp]; simpl; [exact IHl|].
    rewrite IHl, count_cons.
    destruct (String.eqb_spec p q); [congruence|]. reflexivity. }
  rewrite Hrest.
  destruct (In_dec string_dec p (first_occurrences ps)) as [Hin|Hout]; [lia|].
  assert (count p ps = 0).
  { destruct (count p ps) eqn:Hc; [reflexivity|].
    exfalso. apply Hout, In_first_occurrences, count_In. lia. }
  lia.
Qed.

(** X4: the table that the counting loop builds for an aggregated code has
    one key per pointer that occurs with the code, in order of first
    appearance, holds for each the number of its occurrences, and its counts
    add up to the number of errors with that code; no table is built for
    any other code. *)
Theorem counting_loop_table (c : string) (errors : list Message) :
  (aggregated c = true ->
   Dict.keys (counts_of c errors) = first_occurrences (pointers_with c errors)
   /\ List.NoDup (Dict.keys (counts_of c errors))
   /\ (forall p, Dict.get p (counts_of c errors)
                 = if Nat.eqb (occurrences c p errors) 0 then None
                   else Some (occurrences c p errors))
   /\ total (counts_of c errors)
      = length (List.filter (fun m => String.eqb (code m) c) errors))
  /\ (aggregated c = false -> counts_of c errors = []).
Proof.
  split; [|apply counts_of_other].
  intros Hc. rewrite (counts_of_aggregated c errors Hc), keys_tally.
  split; [reflexivity|]. split; [apply NoDup_first_occurrences|]. split.
  - intros p. rewrite occurrences_count. unfold tally. rewrite get_map_key.
    destruct (In_dec string_dec p (first_occurrences (pointers_with c errors)))
      as [Hin|Hout].
    + pose proof (proj1 (count_In _ _) (proj1 (In_first_occurrences _ _) Hin)).
      destruct (count p (pointers_with c errors)); [lia|reflexivity].
    + destruct (count p (pointers_with c errors)) eqn:Hn; [reflexivity|].
      exfalso. apply Hout, In_first_occurrences, count_In. lia.
  - rewrite total_tally. unfold pointers_with. apply length_map.
Qed.

Lemma occurrences_retained_other c p errors :
  aggregated c = false ->
  occurrences c p (retained errors) = occurrences c p errors.
Proof.
  intros Hc. unfold occurrences, retained.
  rewrite filter_filter_implied; [reflexivity|].
  intros m Hm. apply andb_true_iff in Hm. destruct Hm as [Hm _].
  apply String.eqb_eq in Hm. now rewrite Hm, Hc.
Qed.

(** X5: how often a code and pointer occur after the aggregation step.
    For the two aggregated codes: not at all when they did not occur, twice
    when they occurred once (the message and a synthetic one), once when
    they occurred more often (the synthetic one).  For every other code: as
    often as before. *)
Theorem occurrences_after_groupMessages (c p : string) (errors : list Message) :
  occurrences c p (groupMessages errors) =
  if aggregated c
  then match occurrences c p errors with
       | 0 => 0
       | 1 => 2
       | _ => 1
       end
  else occurrences c p errors.
Proof.
  destruct (aggregated c) eqn:Hc.
  - destruct (occurrences c p errors) as [|[|n]] eqn:Hn.
    + rewrite groupMessages_closed_form, !occurrences_app.
      rewrite occurrences_retained_few, Hn by lia.
      aggregated_cases Hc;
        rewrite occurrences_synthetics_same, occurrences_synthetics_other, Hn
          by discriminate; reflexivity.
    + now apply single_message_duplicated.
    + apply repeated_messages_aggregated; [assumption|lia].
  - rewrite groupMessages_closed_form, !occurrences_app.
    rewrite occurrences_retained_other by assumption.
    destruct (aggregated_false c Hc) as [H1 H2].
    rewrite !occurrences_synthetics_other; [lia| |].
    + intros ->. now rewrite String.eqb_refl in H2.
    + intros ->. now rewrite String.eqb_refl in H1.
Qed.

Lemma groupMessages_nil (errors : list Message) :
  groupMessages errors = [] -> errors = [].
Proof.
  rewrite groupMessages_closed_form. intros Hnil.
  apply app_eq_nil in Hnil. destruct Hnil as [Hkept Hnil].
  apply app_eq_nil in Hnil. destruct Hnil as [Hunit Hanim].
  destruct errors as [|m l]; [reflexivity|]. exfalso.
  assert (Hpos : 0 < occurrences (code m) (pointer m) (m :: l)).
  { unfold occurrences. simpl. rewrite !String.eqb_refl. simpl. lia. }
  destruct (aggregated (code m)) eqn:Hc.
  - pose proof (In_synthetics (code m) (pointer m) (m :: l) Hpos) as Hin.
    aggregated_cases Hc.
    + rewrite Hc, Hunit in Hin. destruct Hin.
    + rewrite Hc, Hanim in Hin. destruct Hin.
  - assert (Hin : In m (retained (m :: l))).
    { unfold retained. apply List.filter_In. split; [now left|]. now rewrite Hc. }
    rewrite Hkept in Hin. destruct Hin.
Qed.

(** X6: the aggregation step gives an empty sequence exactly for an empty
    errors sequence: it never removes every error, and it adds nothing
    where there was none. *)
Theorem groupMessages_nil_iff (errors : list Message) :
  groupMessages errors = [] <-> errors = [].
Proof.
  split; [apply groupMessages_nil|intros ->; reflexivity].
Qed.

(** ** The registry across reports *)

Lemma append_assoc (s1 s2 s3 : string) :
  ((s1 ++ s2) ++ s3 = s1 ++ (s2 ++ s3))%string.
Proof.
  induction s1 as [|c s1 IH]; [reflexivity|].
  change (String c ((s1 ++ s2) ++ s3)%string = String c (s1 ++ (s2 ++ s3))%string).
  now rewrite IH.
Qed.

Lemma append_nil_r (s : string) : (s ++ "")%string = s.
Proof.
  induction s as [|c s IH]; [reflexivity|].
  change (String c (s ++ "")%string = String c s). now rewrite IH.
Qed.

Lemma rename_fields tool :
  Tool.generator (rename tool) = Tool.generator tool
  /\ Tool.author (rename tool) = Tool.author tool.
Proof.
  unfold rename.
  destruct (negb (String.eqb (Tool.name tool) (Tool.author tool))); split; reflexivity.
Qed.

Lemma map_alter_rename {B : Type} (proj : Tool.t -> B) (i : nat) (reg : list Tool.t) :
  (forall tool, proj (rename tool) = proj tool) ->
  map proj (alter rename i reg) = map proj reg.
Proof.
  intros Hproj. revert i. induction reg as [|tool reg IH]; intros [|i]; try reflexivity.
  - cbn. now rewrite Hproj.
  - cbn. f_equal. apply IH.
Qed.

Lemma find_ref_generators g (reg1 reg2 : list Tool.t) :
  map Tool.generator reg1 = map Tool.generator reg2 ->
  find_ref (tool_matches g) reg1 = find_ref (tool_matches g) reg2.
Proof.
  revert reg2. induction reg1 as [|t1 reg1 IH]; intros [|t2 reg2] Hmap;
    try discriminate; [reflexivity|].
  injection Hmap as Hg Hrest. simpl.
  unfold tool_matches at 1 3. rewrite Hg.
  now rewrite (IH reg2 Hrest).
Qed.

Lemma registry_setReport r st :
  registry (setReport r st) =
  match find_ref (tool_matches (generatorID r)) (registry st) with
  | Some i => alter rename i (registry st)
  | None => registry st
  end.
Proof. reflexivity. Qed.

Lemma setReport_generators r st :
  map Tool.generator (registry (setReport r st)) = map Tool.generator (registry st).
Proof.
  rewrite registry_setReport. destruct (find_ref _ _); [|reflexivity].
  apply map_alter_rename. intros tool. apply rename_fields.
Qed.

Lemma setReport_scan r st g :
  find_ref (tool_matches g) (registry (setReport r st))
  = find_ref (tool_matches g) (registry st).
Proof. apply find_ref_generators, setReport_generators. Qed.

(** X7: [setReport] changes the registry in one place at most.  The
    registry keeps its length, every entry keeps its pattern and its
    author, the entries other than the one found for the report are
    untouched, and the scan finds for every generator string the entry it
    found before. *)
Theorem setReport_registry (r : RawReport) (st : State) :
  let reg := registry st in
  let reg' := registry (setReport r st) in
  length reg' = length reg
  /\ map Tool.generator reg' = map Tool.generator reg
  /\ map Tool.author reg' = map Tool.author reg
  /\ (forall i, find_ref (tool_matches (generatorID r)) reg <> Some i ->
                reg' !! i = reg !! i)
  /\ (find_ref (tool_matches (generatorID r)) reg = None -> reg' = reg)
  /\ (forall g, find_ref (tool_matches g) reg' = find_ref (tool_matches g) reg).
Proof.
  intros reg reg'. subst reg reg'.
  pose proof (setReport_generators r st) as Hgen.
  pose proof (setReport_scan r st) as Hscan.
  rewrite registry_setReport in *.
  split; [|split; [exact Hgen|split; [|split; [|split]]]].
  - destruct (find_ref _ _); [apply length_alter|reflexivity].
  - destruct (find_ref _ _); [|reflexivity].
    apply map_alter_rename. intros tool. apply rename_fields.
  - intros i Hi. destruct (find_ref _ _) as [j|]; [|reflexivity].
    apply list_lookup_alter_ne. congruence.
  - intros ->. reflexivity.
  - exact Hscan.
Qed.

Lemma by_author_length n author :
  String.length (by_author n author) = n * (4 + String.length author).
Proof.
  induction n as [|n IH]; [reflexivity|].
  cbn [by_author]. rewrite !length_append, IH. cbn [String.length]. lia.
Qed.

Lemma rename_by_author gen nm author n :
  nm <> author ->
  rename (Tool.mk gen (nm ++ by_author n author)%string author)
  = Tool.mk gen (nm ++ by_author (S n) author)%string author.
Proof.
  intros Hne. unfold rename. cbn [Tool.name Tool.author Tool.generator].
  destruct (String.eqb_spec (nm ++ by_author n author)%string author) as [Heq|_].
  - exfalso. destruct n as [|n].
    + cbn [by_author] in Heq. rewrite append_nil_r in Heq. contradiction.
    + apply (f_equal String.length) in Heq.
      rewrite length_append, by_author_length in Heq. lia.
  - cbn [negb by_author]. now rewrite append_assoc.
Qed.

Lemma registry_after_reports r st i tool n :
  find_ref (tool_matches (generatorID r)) (registry st) = Some i ->
  registry st !! i = Some tool ->
  Tool.name tool <> Tool.author tool ->
  find_ref (tool_matches (generatorID r)) (registry (Nat.iter n (setReport r) st))
  = Some i
  /\ registry (Nat.iter n (setReport r) st) !! i
     = Some (Tool.mk (Tool.generator tool)
               (Tool.name tool ++ by_author n (Tool.author tool))%string
               (Tool.author tool)).
Proof.
  intros Hfind Hi Hne. induction n as [|n [IHfind IHi]].
  - split; [exact Hfind|]. cbn [Nat.iter by_author]. rewrite append_nil_r.
    now destruct tool.
  - rewrite Nat.iter_succ. split.
    + now rewrite setReport_scan.
    + rewrite registry_setReport, IHfind.
      rewrite list_lookup_alter_eq, IHi. cbn [option_map fmap option_fmap].
      now rewrite rename_by_author.
Qed.

(** X8: the name a registry entry is displayed with grows with every
    report of its generator.  When the entry found for the report has a name
    that differs from its author, the name displayed after the [n]-th
    [setReport] in a row is the original name followed by [n] times
    [by] and the author. *)
Theorem displayed_name_after_reports
  (r : RawReport) (st : State) (i : nat) (tool : Tool.t) (n : nat) :
  find_ref (tool_matches (generatorID r)) (registry st) = Some i ->
  registry st !! i = Some tool ->
  Tool.name tool <> Tool.author tool ->
  displayed_generator_name (Nat.iter (S n) (setReport r) st)
  = Some (Tool.name tool ++ by_author (S n) (Tool.author tool))%string.
Proof.
  intros Hfind Hi Hne.
  destruct (registry_after_reports r st i tool n Hfind Hi Hne) as [Hf Hl].
  destruct (registry_after_reports r st i tool (S n) Hfind Hi Hne) as [_ Hl'].
  rewrite Nat.iter_succ in *.
  set (stn := Nat.iter n (setReport r) st) in *.
  unfold displayed_generator_name, setReport, showToggle. cbn [toggle].
  fold (generatorID r). rewrite Hf.
  rewrite registry_setReport, Hf in Hl'. rewrite Hl'. reflexivity.
Qed.

Lemma displayed_name_after_reports_witness :
  let st := initial_state [Tool.mk "Solo" "Solo" "Solo"; Tool.mk "Foo*" "Foo" "Bar"] in
  let r := mkRawReport (Some "Foo 1.0") no_issues in
  displayed_generator_name (Nat.iter 3 (setReport r) st)
  = Some "Foo by Bar by Bar by Bar".
Proof.
  intros st r.
  apply (displayed_name_after_reports r st 1 (Tool.mk "Foo*" "Foo" "Bar") 2).
  - reflexivity.
  - reflexivity.
  - discriminate.
Defined.

(** ** The sequences of the report *)

Lemma In_retained m errors : In m (retained errors) -> In m errors.
Proof. unfold retained. intros H. now apply List.filter_In in H. Qed.

Lemma In_groupMessages m errors :
  In m (groupMessages errors) ->
  In m errors \/ (severity m = None /\ aggregated (code m) = true).
Proof.
  rewrite groupMessages_closed_form, !in_app_iff.
  intros [H|[H|H]].
  - left. now apply In_retained.
  - right. unfold synthetics in H. apply in_map_iff in H.
    destruct H as (p & <- & _). split; reflexivity.
  - right. unfold synthetics in H. apply in_map_iff in H.
    destruct H as (p & <- & _). split; reflexivity.
Qed.

Lemma report_setReport r st :
  report (setReport r st) =
  Some (mkReport r (find_ref (tool_matches (generatorID r)) (registry st))
          (computeMaxSeverity (issues r))
          (groupMessages (List.filter (severity_is 0) (messages (issues r))))
          (List.filter (severity_is 1) (messages (issues r)))
          (List.filter (severity_is 2) (messages (issues r)))
          (List.filter (severity_is 3) (messages (issues r)))).
Proof. reflexivity. Qed.

(** X9: what the four sequences of a report hold.  Every message of
    [errors] is a message of the validator with severity 0 or a synthetic
    message of an aggregated code, which has no severity; a message of the
    validator with any severity other than 0, 1, 2 and 3 is in none of the
    four sequences. *)
Theorem setReport_sequences (r : RawReport) (st : State) :
  exists n,
    report (setReport r st) = Some n
    /\ (forall m, In m (errors n) ->
          (In m (messages (issues r)) /\ severity m = Some 0%Z)
          \/ (severity m = None /\ aggregated (code m) = true))
    /\ (forall m, In m (warnings n) -> In m (messages (issues r)) /\ severity m = Some 1%Z)
    /\ (forall m, In m (infos n) -> In m (messages (issues r)) /\ severity m = Some 2%Z)
    /\ (forall m, In m (hints n) -> In m (messages (issues r)) /\ severity m = Some 3%Z)
    /\ (forall m s, severity m = Some s ->
          s <> 0%Z -> s <> 1%Z -> s <> 2%Z -> s <> 3%Z ->
          ~ In m (errors n) /\ ~ In m (warnings n)
          /\ ~ In m (infos n) /\ ~ In m (hints n)).
Proof.
  eexists. split; [apply report_setReport|].
  cbn [errors warnings infos hints].
  assert (Herr : forall m,
             In m (groupMessages (List.filter (severity_is 0) (messages (issues r)))) ->
             (In m (messages (issues r)) /\ severity m = Some 0%Z)
             \/ (severity m = None /\ aggregated (code m) = true)).
  { intros m Hm. apply In_groupMessages in Hm. destruct Hm as [Hm|Hm]; [left|now right].
    now apply In_bucket in Hm. }
  split; [exact Herr|].
  split; [intros m; apply In_bucket|].
  split; [intros m; apply In_bucket|].
  split; [intros m; apply In_bucket|].
  intros m s Hs H0 H1 H2 H3. repeat split.
  - intros Hm. destruct (Herr m Hm) as [[_ H]|[H _]]; congruence.
  - intros Hm. apply In_bucket in Hm. destruct Hm as [_ H]. congruence.
  - intros Hm. apply In_bucket in Hm. destruct Hm as [_ H]. congruence.
  - intros Hm. apply In_bucket in Hm. destruct Hm as [_ H]. congruence.
Qed.

Lemma positive_length {A : Type} (l : list A) :
  Z.ltb 0 (Z.of_nat (length l)) = match l with [] => false | _ => true end.
Proof. destruct l; reflexivity. Qed.

(** X10: when the summary counts of the validator agree with its
    messages, [maxSeverity] names the first of the sequences [errors],
    [warnings], [infos] and [hints] of the report that is not empty, and is
    -1 exactly when all four are empty. *)
Theorem maxSeverity_names_first_sequence (r : RawReport) (st : State) :
  counts_agree (issues r) ->
  exists n,
    report (setReport r st) = Some n
    /\ (maxSeverity n = 0%Z <-> errors n <> [])
    /\ (maxSeverity n = 1%Z <-> errors n = [] /\ warnings n <> [])
    /\ (maxSeverity n = 2%Z <-> errors n = [] /\ warnings n = [] /\ infos n <> [])
    /\ (maxSeverity n = 3%Z <->
        errors n = [] /\ warnings n = [] /\ infos n = [] /\ hints n <> [])
    /\ (maxSeverity n = (-1)%Z <->
        errors n = [] /\ warnings n = [] /\ infos n = [] /\ hints n = []).
Proof.
  intros (He & Hw & Hi & Hh).
  eexists. split; [apply report_setReport|].
  cbn [maxSeverity errors warnings infos hints].
  rewrite computeMaxSeverity_cases, He, Hw, Hi, Hh, !positive_length.
  assert (Hnil : forall l, groupMessages l = [] <-> l = [])
    by (intros l; split; [apply groupMessages_nil|intros ->; reflexivity]).
  rewrite Hnil.
  destruct (List.filter (severity_is 0) (messages (issues r)));
    destruct (List.filter (severity_is 1) (messages (issues r)));
    destruct (List.filter (severity_is 2) (messages (issues r)));
    destruct (List.filter (severity_is 3) (messages (issues r)));
    repeat split; intros; try discriminate; try tauto;
    repeat match goal with H : _ /\ _ |- _ => destruct H end;
    try discriminate; try congruence.
Qed.

Lemma maxSeverity_names_first_sequence_witness :
  let msgs := [mkMessage "UNUSED_OBJECT" "/accessors/0" (Some 2%Z) "i";
               mkMessage "NODE_EMPTY" "/nodes/1" (Some 1%Z) "w"] in
  let r := mkRawReport None (mkIssues msgs 0 1 1 0) in
  exists n, report (setReport r (initial_state [])) = Some n
            /\ maxSeverity n = 1%Z /\ errors n = [] /\ warnings n <> [].
Proof.
  intros msgs r.
  assert (Hagree : counts_agree (issues r)) by (repeat split).
  destruct (maxSeverity_names_first_sequence r (initial_state []) Hagree)
    as (n & Hn & _ & H1 & _).
  exists n. split; [exact Hn|].
  injection Hn as <-. cbn [maxSeverity errors warnings] in *.
  split; [reflexivity|]. apply H1. reflexivity.
Defined.

(** ** The presenter *)

Lemma validate_cases host rootFile rootPath assetMap st :
  (exists r b, validate host rootFile rootPath assetMap st
               = setReport r (mkState (report st) (toggle st) (hidden st)
                                (registry st) b (tabs st)))
  \/ (exists e b, validate host rootFile rootPath assetMap st
                  = setReportException e (mkState (report st) (toggle st) (hidden st)
                                            (registry st) b (tabs st))).
Proof.
  unfold validate.
  destruct (validation host rootFile rootPath assetMap (browser st)) as [[r|e] b];
    [left|right]; eauto.
Qed.

Lemma step_view_matches host st a : view_matches st -> view_matches (step host st a).
Proof.
  intros Hst. destruct a as [rootFile rootPath assetMap|r|e| |]; cbn [step].
  - destruct (validate_cases host rootFile rootPath assetMap st)
      as [(r & b & ->)|(e & b & ->)]; reflexivity.
  - reflexivity.
  - reflexivity.
  - exact Hst.
  - unfold showLightbox. destruct (report st) as [held|] eqn:Hheld; [|exact Hst].
    unfold view_matches in *. cbn [report toggle]. now rewrite Hheld in Hst.
Qed.

(** X11: the toggle always shows what the controller holds.  Whatever
    sequence of validations, reports, exceptions, dismissals and clicks
    happens, afterwards the toggle shows the report that is held, or an
    exception (or nothing yet) when no report is held. *)
Theorem run_view_matches (host : Host) (actions : list Action) (st : State) :
  view_matches st -> view_matches (run host actions st).
Proof.
  unfold run. revert st.
  induction actions as [|a actions IH]; intros st Hst; [exact Hst|].
  cbn [fold_left]. apply IH. now apply step_view_matches.
Qed.

Lemma run_view_matches_witness :
  view_matches
    (run sample_host
       [Validated "scene.gltf" "" ∅; Dismissed; Opened;
        Failed (ValidatorError "invalid"); Opened;
        Reported (mkRawReport (Some "Foo 1.0") no_issues)]
       (initial_state [Tool.mk "Foo*" "Foo" "Bar"])).
Proof. apply run_view_matches. exact I. Defined.

Lemma hidden_step host st a :
  hidden (step host st a)
  = match a with
    | Dismissed => true
    | Opened => hidden st
    | _ => false
    end.
Proof.
  destruct a as [rootFile rootPath assetMap|r|e| |]; cbn [step]; try reflexivity.
  - destruct (validate_cases host rootFile rootPath assetMap st)
      as [(r & b & ->)|(e & b & ->)]; reflexivity.
  - unfold showLightbox. now destruct (report st).
Qed.

(** X12: the visibility of the toggle is a machine of two states that
    depends on nothing but the actions: a validation, a report and an
    exception show the toggle, a click on its close button hides it, and
    opening the report leaves it as it is. *)
Theorem hidden_run (host : Host) (actions : list Action) (st : State) :
  hidden (run host actions st) = hidden_after actions (hidden st).
Proof.
  unfold run, hidden_after. revert st.
  induction actions as [|a actions IH]; intros st; [reflexivity|].
  cbn [fold_left]. now rewrite IH, hidden_step.
Qed.

Lemma tabs_step host st a :
  tabs (step host st a)
  = match a, report st with
    | Opened, Some r => tabs st ++ [r]
    | _, _ => tabs st
    end.
Proof.
  destruct a as [rootFile rootPath assetMap|r|e| |]; cbn [step]; try reflexivity.
  - destruct (validate_cases host rootFile rootPath assetMap st)
      as [(r & b & ->)|(e & b & ->)]; reflexivity.
  - unfold showLightbox. destruct (report st); reflexivity.
Qed.

(** X13: the tabs that [showLightbox] opens.  No action closes or changes
    a tab that is open, and every tab opened shows a report that the
    controller held when the toggle was clicked: no tab is opened for an
    exception or before the first report. *)
Theorem run_tabs (host : Host) (actions : list Action) (st : State) :
  exists opened,
    tabs (run host actions st) = tabs st ++ opened
    /\ forall t, In t opened ->
                 exists k, k < length actions
                           /\ nth_error actions k = Some Opened
                           /\ report (run host (firstn k actions) st) = Some t.
Proof.
  unfold run. revert st.
  induction actions as [|a actions IH]; intros st.
  - exists []. split; [now rewrite app_nil_r|]. intros t [].
  - cbn [fold_left]. destruct (IH (step host st a)) as (opened & Htabs & Hopened).
    rewrite Htabs, tabs_step.
    assert (Hlater : forall t, In t opened ->
               exists k, k < length (a :: actions)
                         /\ nth_error (a :: actions) k = Some Opened
                         /\ report (fold_left (step host) (firstn k (a :: actions)) st)
                            = Some t).
    { intros t Ht. destruct (Hopened t Ht) as (k & Hk & Hnth & Hrep).
      exists (S k). cbn [length nth_error firstn fold_left]. repeat split; auto. lia. }
    destruct a as [rootFile rootPath assetMap|r|e| |];
      try (exists opened; split; [reflexivity|exact Hlater]).
    destruct (report st) as [held|] eqn:Hheld;
      [|exists opened; split; [reflexivity|exact Hlater]].
    exists (held :: opened). split; [now rewrite <- app_assoc|].
    intros t [<-|Ht]; [|now apply Hlater].
    exists 0. cbn [length nth_error firstn fold_left]. repeat split; auto. lia.
Qed.

(** X14: a validation whose root file cannot be fetched.  The file is
    requested from the network once, whatever the asset map holds; the
    validator is not run, no resource is resolved and the registry is left
    alone; the toggle is shown with the exception, and the report that was
    held before is dropped. *)
Theorem validate_root_fetch_fails
  (host : Host) (rootFile rootPath : string) (assetMap : gmap string File)
  (st : State) (e : Error) :
  objectURLs (browser st) !! rootFile = None ->
  network host rootFile = Rejected e
  \/ (exists response, network host rootFile = Fulfilled response
                       /\ body response = Rejected e) ->
  validate host rootFile rootPath assetMap st
  = mkState None (ExceptionView e 0) false (registry st)
      (mkBrowser (objectURLs (browser st)) (created (browser st))
                 (requests (browser st) ++ [rootFile]))
      (tabs st).
Proof.
  intros Hurl Hnet. unfold validate, validation, and_then, fetch, arrayBuffer.
  rewrite Hurl. destruct Hnet as [->|(response & -> & ->)]; reflexivity.
Qed.

Lemma validate_root_fetch_fails_witness :
  let st := setReport (mkRawReport None no_issues) (initial_state []) in
  let assetMap : gmap string File := {[ "scene.gltf" := texture ]} in
  let st' := validate sample_host "scene.gltf" "" assetMap st in
  report st <> None /\ report st' = None
  /\ requests (browser st') = ["scene.gltf"].
Proof.
  intros st assetMap st'. subst st'.
  rewrite (validate_root_fetch_fails sample_host "scene.gltf" "" assetMap st
             (TypeError "Failed to fetch")).
  - repeat split. discriminate.
  - reflexivity.
  - left. reflexivity.
Defined.

Lemma step_generators host st a :
  map Tool.generator (registry (step host st a)) = map Tool.generator (registry st).
Proof.
  assert (Hset : forall r st0, map Tool.generator (registry (setReport r st0))
                               = map Tool.generator (registry st0)).
  { intros r st0. apply setReport_generators. }
  destruct a as [rootFile rootPath assetMap|r|e| |]; cbn [step]; try reflexivity.
  - destruct (validate_cases host rootFile rootPath assetMap st)
      as [(r & b & ->)|(e & b & ->)]; [now rewrite Hset|reflexivity].
  - apply Hset.
  - unfold showLightbox. now destruct (report st).
Qed.

(** X22: the report that [setReport] builds does not depend on what
    happened before.  After any sequence of validations, reports,
    exceptions, dismissals and clicks, a report of the validator is
    normalised to the same record (the same registry entry, the same
    [maxSeverity], the same four sequences) as at the start; only the name
    stored in that registry entry may differ. *)
Theorem report_independent_of_history
  (host : Host) (actions : list Action) (r : RawReport) (st : State) :
  report (setReport r (run host actions st)) = report (setReport r st).
Proof.
  assert (Hgen : map Tool.generator (registry (run host actions st))
                 = map Tool.generator (registry st)).
  { unfold run. revert st. induction actions as [|a actions IH]; intros st;
      [reflexivity|].
    cbn [fold_left]. now rewrite IH, step_generators. }
  rewrite !report_setReport.
  now rewrite (find_ref_generators (generatorID r) _ _ Hgen).
Qed.

(** ** Object URLs *)

Lemma of_nat_inj n m : JsString.of_nat n = JsString.of_nat m -> n = m.
Proof.
  unfold JsString.of_nat. intros H.
  apply (f_equal NilEmpty.uint_of_string) in H.
  rewrite !NilEmpty.usu in H. injection H as H.
  now apply Unsigned.to_uint_inj.
Qed.

Lemma object_url_inj n m : object_url n = object_url m -> n = m.
Proof.
  unfold object_url. intros H.
  change (String "b" (String "l" (String "o" (String "b" (String ":" (JsString.of_nat n)))))
          = String "b" (String "l" (String "o" (String "b" (String ":" (JsString.of_nat m))))))
    in H.
  injection H as H. now apply of_nat_inj.
Qed.

Lemma browser_wf_fresh b n :
  browser_wf b -> created b <= n -> objectURLs b !! object_url n = None.
Proof.
  intros Hwf Hn. destruct (objectURLs b !! object_url n) as [f|] eqn:Hlive; [|reflexivity].
  destruct (Hwf _ _ Hlive) as (k & Hk & Heq).
  apply object_url_inj in Heq. lia.
Qed.

Lemma resolve_throws host uri rootFile rootPath assetMap b :
  decodeURI host uri = None ->
  resolveExternalResource host uri rootFile rootPath assetMap b
  = (Rejected (URIError "URI malformed"), b).
Proof. intros H. unfold resolveExternalResource. now rewrite H. Qed.

Lemma resolve_miss_local host uri rootFile rootPath decoded assetMap b f :
  decodeURI host uri = Some decoded ->
  assetMap !! normalizeURL (extractUrlBase host rootFile) rootPath decoded = None ->
  objectURLs b !! (extractUrlBase host rootFile ++ uri)%string = Some f ->
  snd (resolveExternalResource host uri rootFile rootPath assetMap b) = b.
Proof.
  intros Hdecoded Hkey Hurl. unfold resolveExternalResource.
  rewrite Hdecoded, Hkey. unfold and_then, fetch, arrayBuffer. rewrite Hurl.
  unfold read_file. destruct (available f); [|reflexivity].
  cbn [body]. destruct (intact f); reflexivity.
Qed.

(** X15: what a call of the resolver does to the object URLs of the page,
    when those were all handed out by [createObjectURL].  It creates one
    object URL at most and requests one URL from the network at most; it
    never revokes or replaces an object URL that was live before the call;
    and when its promise is fulfilled the live object URLs are exactly
    those of before. *)
Theorem resolveExternalResource_browser
  (host : Host) (uri rootFile rootPath : string) (assetMap : gmap string File)
  (b : Browser) :
  browser_wf b ->
  let out := resolveExternalResource host uri rootFile rootPath assetMap b in
  browser_wf (snd out)
  /\ (created (snd out) = created b \/ created (snd out) = S (created b))
  /\ (requests (snd out) = requests b
      \/ exists url, requests (snd out) = requests b ++ [url])
  /\ (forall url f, objectURLs b !! url = Some f ->
                    objectURLs (snd out) !! url = Some f)
  /\ (forall bytes, fst out = Fulfilled bytes -> objectURLs (snd out) = objectURLs b).
Proof.
  intros Hwf out. subst out.
  destruct (decodeURI host uri) as [decoded|] eqn:Hdecoded.
  2:{ rewrite resolve_throws by assumption. cbn [fst snd].
      repeat split; auto; try discriminate. }
  destruct (assetMap !! normalizeURL (extractUrlBase host rootFile) rootPath decoded)
    as [object|] eqn:Hkey.
  - rewrite (resolve_hit host uri rootFile rootPath decoded assetMap b Hdecoded object Hkey).
    cbv zeta.
    pose proof (browser_wf_fresh b (created b) Hwf (Nat.le_refl _)) as Hfresh.
    assert (Hwf1 : browser_wf (mkBrowser (<[object_url (created b) := object]> (objectURLs b))
                                 (S (created b)) (requests b))).
    { intros url f. cbn [objectURLs created]. rewrite lookup_insert_Some.
      intros [[<- _]|[_ Hlive]].
      - exists (created b). split; [lia|reflexivity].
      - destruct (Hwf _ _ Hlive) as (n & Hn & ->). exists n. split; [lia|reflexivity]. }
    assert (Hkeep1 : forall url f, objectURLs b !! url = Some f ->
               <[object_url (created b) := object]> (objectURLs b) !! url = Some f).
    { intros url f Hlive. rewrite lookup_insert_ne; [assumption|].
      intros <-. congruence. }
    destruct (available object); [destruct (intact object)|].
    + unfold revokeObjectURL. cbn [fst snd objectURLs created requests].
      rewrite delete_insert_id by assumption.
      repeat split; auto. intros url f Hlive.
      destruct (Hwf _ _ Hlive) as (n & Hn & ->). exists n. cbn [created].
      split; [lia|reflexivity].
    + cbn [fst snd objectURLs created requests]. repeat split; auto; try discriminate.
    + cbn [fst snd objectURLs created requests]. repeat split; auto; try discriminate.
  - destruct (objectURLs b !! (extractUrlBase host rootFile ++ uri)%string)
      as [f|] eqn:Hurl.
    + rewrite (resolve_miss_local host uri rootFile rootPath decoded assetMap b f)
        by assumption.
      repeat split; auto.
    + rewrite (resolve_miss host uri rootFile rootPath decoded assetMap b Hdecoded Hkey Hurl).
      cbn [fst snd objectURLs created requests].
      repeat split; eauto.
Qed.

Lemma resolveExternalResource_browser_witness :
  let assetMap : gmap string File := {[ "models/tex.png" := texture ]} in
  let b := snd (resolveExternalResource sample_host "./lost.png" "blob:root" "models/"
                  {[ "models/lost.png" := lost_texture ]} empty_browser) in
  let out := resolveExternalResource sample_host "./tex.png" "blob:root" "models/"
               assetMap b in
  browser_wf b
  /\ objectURLs b !! object_url 0 = Some lost_texture
  /\ objectURLs (snd out) !! object_url 0 = Some lost_texture
  /\ created (snd out) = 2.
Proof.
  intros assetMap b out.
  assert (Hwf0 : browser_wf empty_browser).
  { intros url f H. vm_compute in H. discriminate. }
  assert (Hwf : browser_wf b).
  { exact (proj1 (resolveExternalResource_browser sample_host "./lost.png" "blob:root"
                    "models/" {[ "models/lost.png" := lost_texture ]} empty_browser Hwf0)). }
  assert (Hlive : objectURLs b !! object_url 0 = Some lost_texture)
    by (vm_compute; reflexivity).
  split; [exact Hwf|]. split; [exact Hlive|]. split.
  - destruct (resolveExternalResource_browser sample_host "./tex.png" "blob:root"
                "models/" assetMap b Hwf) as (_ & _ & _ & Hkeep & _).
    now apply Hkeep.
  - vm_compute. reflexivity.
Defined.

(** ** The loader hook of the viewer *)

Lemma transformAll_state rootPath assetMap calls l :
  snd (transformAll rootPath assetMap calls l)
  = fold_left (fun l call =>
                 snd (gltfPathTransform rootPath assetMap (fst call) (snd call) l))
              calls l.
Proof.
  unfold transformAll.
  assert (H : forall urls,
             snd (fold_left
                    (fun acc call =>
                       let '(u, l') := gltfPathTransform rootPath assetMap (fst call)
                                         (snd call) (snd acc) in
                       (fst acc ++ [u], l'))
                    calls (urls, l))
             = fold_left (fun l call =>
                            snd (gltfPathTransform rootPath assetMap (fst call) (snd call) l))
                         calls l).
  { revert l. induction calls as [|call calls IH]; intros l urls; [reflexivity|].
    cbn [fold_left fst snd].
    destruct (gltfPathTransform rootPath assetMap (fst call) (snd call) l) as [u l'].
    apply IH. }
  apply H.
Qed.

Lemma gltfPathTransform_loading rootPath assetMap url path b k l :
  loading_from b k l ->
  loading_from b
    (k + length (hits rootPath assetMap [(url, path)]))
    (snd (gltfPathTransform rootPath assetMap url path l)).
Proof.
  intros (Hcreated & Hurls & Hreq & Hother & Hlive).
  unfold gltfPathTransform, hits. cbn [List.filter fst].
  destruct (assetMap !! (rootPath ++ JsString.strip_leading_slash url)%string)
    as [blob|]; cbn [length snd].
  2:{ rewrite Nat.add_0_r. repeat split; assumption. }
  unfold createObjectURL, loading_from.
  cbn [snd blobURLs page created objectURLs requests].
  repeat split.
  - lia.
  - rewrite Hurls, Hcreated, Nat.add_1_r, seq_S, map_app. reflexivity.
  - assumption.
  - intros u Hu. rewrite in_app_iff in Hu.
    rewrite lookup_insert_ne; [apply Hother; tauto|].
    intros <-. apply Hu. right. now left.
  - intros u Hu. rewrite in_app_iff in Hu.
    destruct (string_dec (object_url (created (page l))) u) as [<-|Hne].
    + rewrite lookup_insert_eq. eauto.
    + rewrite lookup_insert_ne by assumption. apply Hlive.
      destruct Hu as [Hu|[Hu|[]]]; [assumption|contradiction].
Qed.

Lemma transformAll_loading rootPath assetMap calls b k l :
  loading_from b k l ->
  loading_from b (k + length (hits rootPath assetMap calls))
               (snd (transformAll rootPath assetMap calls l)).
Proof.
  rewrite transformAll_state. revert k l.
  induction calls as [|[url path] calls IH]; intros k l Hl.
  - cbn. now rewrite Nat.add_0_r.
  - cbn [fold_left fst snd].
    pose proof (gltfPathTransform_loading rootPath assetMap url path b k l Hl) as Hstep.
    apply IH in Hstep.
    replace (k + length (hits rootPath assetMap ((url, path) :: calls)))
      with (k + length (hits rootPath assetMap [(url, path)])
            + length (hits rootPath assetMap calls)); [exact Hstep|].
    unfold hits. cbn [List.filter fst].
    destruct (assetMap !! (rootPath ++ JsString.strip_leading_slash url)%string);
      cbn [length]; lia.
Qed.

Lemma revoke_all urls b :
  created (fold_left (fun b u => revokeObjectURL u b) urls b) = created b
  /\ requests (fold_left (fun b u => revokeObjectURL u b) urls b) = requests b
  /\ forall u, objectURLs (fold_left (fun b u => revokeObjectURL u b) urls b) !! u
               = if In_dec string_dec u urls then None else objectURLs b !! u.
Proof.
  revert b. induction urls as [|url urls IH]; intros b.
  - repeat split.
  - cbn [fold_left]. destruct (IH (revokeObjectURL url b)) as (Hc & Hr & Hl).
    rewrite Hc, Hr. repeat split. intros u. rewrite Hl.
    unfold revokeObjectURL. cbn [objectURLs].
    destruct (In_dec string_dec u urls) as [Hin|Hout];
      destruct (In_dec string_dec u (url :: urls)) as [Hin'|Hout']; cbn [In] in *;
      try reflexivity; try tauto.
    + destruct Hin' as [->|Hin']; [apply lookup_delete_eq|contradiction].
    + apply lookup_delete_ne. tauto.
Qed.

(** X16: the object URLs of a load.  Starting from a page whose object
    URLs were all handed out by [createObjectURL], a load creates one
    object URL for every call of the hook that finds its key in the asset
    map, and requests nothing from the network itself.  When the loader
    succeeds, the live object URLs afterwards are exactly those of before;
    when it fails, the object URLs of the load stay live beside them. *)
Theorem load_object_urls
  (rootPath : string) (assetMap : gmap string File)
  (calls : list (string * option string)) (b : Browser) :
  browser_wf b ->
  let n := length (hits rootPath assetMap calls) in
  objectURLs (load rootPath assetMap calls true b) = objectURLs b
  /\ (forall k, k < n ->
        is_Some (objectURLs (load rootPath assetMap calls false b)
                 !! object_url (created b + k)))
  /\ (forall u f, objectURLs b !! u = Some f ->
        objectURLs (load rootPath assetMap calls false b) !! u = Some f)
  /\ (forall succeeds,
        created (load rootPath assetMap calls succeeds b) = created b + n
        /\ requests (load rootPath assetMap calls succeeds b) = requests b).
Proof.
  intros Hwf n. subst n. unfold load.
  assert (H0 : loading_from b 0 (mkLoading [] b)).
  { unfold loading_from. cbn [page blobURLs map seq].
    repeat split; try reflexivity; try lia. intros u []. }
  pose proof (transformAll_loading rootPath assetMap calls b 0 _ H0) as Hl.
  cbn [Nat.add] in Hl.
  set (l := snd (transformAll rootPath assetMap calls (mkLoading [] b))) in *.
  destruct Hl as (Hcreated & Hurls & Hreq & Hother & Hlive).
  assert (Hfresh : forall u, In u (blobURLs l) -> objectURLs b !! u = None).
  { intros u Hu. rewrite Hurls in Hu. apply in_map_iff in Hu.
    destruct Hu as (k & <- & Hk). apply in_seq in Hk.
    apply browser_wf_fresh; [assumption|lia]. }
  destruct (revoke_all (blobURLs l) (page l)) as (Hc & Hr & Hlookup).
  split; [|split; [|split]].
  - unfold revokeBlobURLs. apply map_eq. intros u. rewrite Hlookup.
    destruct (In_dec string_dec u (blobURLs l)) as [Hin|Hout].
    + symmetry. now apply Hfresh.
    + now apply Hother.
  - intros k Hk. apply Hlive. rewrite Hurls. apply in_map, in_seq. lia.
  - intros u f Hu. rewrite Hother; [assumption|].
    intros Hin. rewrite (Hfresh u Hin) in Hu. discriminate.
  - intros [|]; unfold revokeBlobURLs; [rewrite Hc, Hr|]; split; assumption.
Qed.

Lemma load_object_urls_witness :
  let assetMap : gmap string File :=
    {[ "models/tex.png" := texture; "models/scene.bin" := texture ]} in
  let calls := [("./scene.bin", Some "blob:"); ("tex.png", None); ("missing.png", None)] in
  objectURLs (load "models/" assetMap calls true empty_browser) = ∅
  /\ is_Some (objectURLs (load "models/" assetMap calls false empty_browser)
              !! object_url 1)
  /\ created (load "models/" assetMap calls true empty_browser) = 2.
Proof.
  intros assetMap calls.
  assert (Hwf0 : browser_wf empty_browser).
  { intros url f H. vm_compute in H. discriminate. }
  destruct (load_object_urls "models/" assetMap calls empty_browser Hwf0)
    as (Hsame & Hleft & _ & Hcount).
  split; [exact Hsame|]. split.
  - apply (Hleft 1). vm_compute. lia.
  - exact (proj1 (Hcount true)).
Defined.

Lemma replace_absent (pat rep s : string) :
  occurs pat s = false -> JsString.replace pat rep s = s.
Proof.
  induction s as [|c s IH]; intros H; rewrite replace_unfold;
    unfold JsString.startsWith; cbn [occurs] in H;
    apply orb_false_iff in H; destruct H as [Hpre Hrest]; rewrite Hpre.
  - reflexivity.
  - now rewrite IH.
Qed.

(** X17: the viewer and the validator look up the same key.  For a URI
    that [decodeURI] leaves as it is and in which the base directory of the
    root file does not occur, the key that the resolver of the validator
    looks up in the asset map is the key that the hook of the viewer looks
    up: the root path followed by the URI without one leading [./] or
    [/]. *)
Theorem viewer_and_validator_keys
  (host : Host) (uri rootFile rootPath : string) :
  decodeURI host uri = Some uri ->
  occurs (extractUrlBase host rootFile) uri = false ->
  normalizeURL (extractUrlBase host rootFile) rootPath uri
  = (rootPath ++ JsString.strip_leading_slash uri)%string
  /\ forall (assetMap : gmap string File) (path : option string) (l : Loading) (b : Browser),
       match assetMap !! (rootPath ++ JsString.strip_leading_slash uri)%string with
       | Some blob =>
           fst (gltfPathTransform rootPath assetMap uri path l)
           = object_url (created (page l))
           /\ objectURLs (snd (gltfPathTransform rootPath assetMap uri path l)).(page)
              !! object_url (created (page l)) = Some blob
           /\ created (snd (resolveExternalResource host uri rootFile rootPath assetMap b))
              = S (created b)
       | None =>
           fst (gltfPathTransform rootPath assetMap uri path l)
           = (match path with Some p => p | None => "" end ++ uri)%string
           /\ snd (gltfPathTransform rootPath assetMap uri path l) = l
           /\ created (snd (resolveExternalResource host uri rootFile rootPath assetMap b))
              = created b
       end.
Proof.
  intros Hdecoded Habsent.
  assert (Hkey : normalizeURL (extractUrlBase host rootFile) rootPath uri
                 = (rootPath ++ JsString.strip_leading_slash uri)%string).
  { unfold normalizeURL. now rewrite replace_absent. }
  split; [exact Hkey|]. intros assetMap path l b.
  destruct (assetMap !! (rootPath ++ JsString.strip_leading_slash uri)%string)
    as [blob|] eqn:Hlookup.
  - unfold gltfPathTransform. rewrite Hlookup. unfold createObjectURL.
    cbn [fst snd page objectURLs]. split; [reflexivity|]. split.
    + apply lookup_insert_eq.
    + rewrite <- Hkey in Hlookup.
      rewrite (resolve_hit host uri rootFile rootPath uri assetMap b Hdecoded blob Hlookup).
      cbv zeta. destruct (available blob), (intact blob); reflexivity.
  - unfold gltfPathTransform. rewrite Hlookup. cbn [fst snd].
    split; [reflexivity|]. split; [reflexivity|].
    rewrite <- Hkey in Hlookup. unfold resolveExternalResource.
    rewrite Hdecoded, Hlookup. unfold and_then, fetch, arrayBuffer.
    destruct (objectURLs b !! _) as [f|].
    + unfold read_file. destruct (available f); [|reflexivity].
      cbn [body]. destruct (intact f); reflexivity.
    + destruct (network host _) as [response|e]; [|reflexivity].
      destruct (body response); reflexivity.
Qed.

Lemma viewer_and_validator_keys_witness :
  normalizeURL (extractUrlBase sample_host "https://host/models/scene.gltf")
    "models/" "./textures/wood.png"
  = "models/textures/wood.png".
Proof.
  exact (proj1 (viewer_and_validator_keys sample_host "./textures/wood.png"
                  "https://host/models/scene.gltf" "models/" eq_refl eq_refl)).
Defined.

(** ** The key of the resolver and the canonical key *)

Lemma strip_prefix_prefix (p s : string) :
  strip_prefix p s =
  if String.prefix p s then Some (JsString.drop (String.length p) s) else None.
Proof.
  revert s. induction p as [|a p IH]; intros s.
  - now destruct s.
  - destruct s as [|c s]; [reflexivity|].
    cbn [strip_prefix String.prefix String.length JsString.drop].
    destruct (ascii_dec a c) as [->|Hne].
    + rewrite Ascii.eqb_refl. apply IH.
    + destruct (Ascii.eqb_spec a c); [contradiction|reflexivity].
Qed.

Lemma prefix_cons (a c : ascii) (p s : string) :
  String.prefix (String a p) (String c s) = Ascii.eqb c a && String.prefix p s.
Proof.
  cbn [String.prefix]. rewrite Ascii.eqb_sym.
  destruct (ascii_dec a c) as [->|H]; [now rewrite Ascii.eqb_refl|].
  destruct (Ascii.eqb_spec a c); [contradiction|reflexivity].
Qed.

Lemma strip_leading_slash_spec (s : string) :
  JsString.strip_leading_slash s = strip_leading s.
Proof.
  unfold JsString.strip_leading_slash, JsString.startsWith, strip_leading.
  destruct s as [|c s]; [reflexivity|]. rewrite !prefix_cons.
  destruct (Ascii.eqb_spec c "/"%char) as [->|Hslash].
  - change (Ascii.eqb "/" ".") with false. now destruct s.
  - destruct (Ascii.eqb c "."%char); [|reflexivity].
    destruct s as [|d s]; [reflexivity|]. rewrite prefix_cons.
    destruct (Ascii.eqb d "/"%char); [now destruct s|reflexivity].
Qed.

(** Where the base directory is at the front of the decoded URI or nowhere
    in it, the key that the resolver looks up is the canonical key. *)
Lemma normalizeURL_canonical (baseURL rootPath decoded : string) :
  String.prefix baseURL decoded = true \/ occurs baseURL decoded = false ->
  normalizeURL baseURL rootPath decoded = canonical_key baseURL rootPath decoded.
Proof.
  intros H. unfold normalizeURL, canonical_key.
  rewrite strip_leading_slash_spec, strip_prefix_prefix. f_equal. f_equal.
  destruct (String.prefix baseURL decoded) eqn:Hpre.
  - rewrite replace_unfold. unfold JsString.startsWith. rewrite Hpre.
    reflexivity.
  - destruct H as [H|H]; [discriminate|]. now apply replace_absent.
Qed.

(** C6, as stated: a request whose normalised URI is a key of the asset map
    is answered with the bytes stored at that key and without a network
    request.  With the root file [/scene.gltf] the base directory is [/];
    the URI [tex/img.png] does not start with it, so its normalised URI is
    [tex/img.png], a key of the asset map.  The resolver removes the [/]
    inside the URI, looks up [teximg.png] and sends a request to the
    network.  And a key whose file can no longer be opened is found and
    gives no bytes at all. *)
Lemma canonical_key_hit_unanswered :
  let assetMap : gmap string File := {[ "tex/img.png" := texture ]} in
  let out := resolveExternalResource sample_host "tex/img.png" "/scene.gltf" ""
               assetMap empty_browser in
  let lost : gmap string File := {[ "models/tex.png" := lost_texture ]} in
  let out' := resolveExternalResource sample_host "./tex.png" "blob:root" "models/"
                lost empty_browser in
  (extractUrlBase sample_host "/scene.gltf" = "/"
   /\ assetMap !! canonical_key "/" "" "tex/img.png" = Some texture
   /\ normalizeURL "/" "" "tex/img.png" = "teximg.png"
   /\ requests (snd out) = ["/tex/img.png"]
   /\ fst out <> Fulfilled (contents texture))
  /\ (lost !! canonical_key (extractUrlBase sample_host "blob:root") "models/" "./tex.png"
      = Some lost_texture
      /\ fst out' = Rejected (TypeError "Failed to fetch")
      /\ fst out' <> Fulfilled (contents lost_texture)).
Proof.
  intros assetMap out lost out'.
  assert (Hout : fst out = Rejected (TypeError "Failed to fetch"))
    by (vm_compute; reflexivity).
  assert (Hout' : fst out' = Rejected (TypeError "Failed to fetch"))
    by (vm_compute; reflexivity).
  split.
  - split; [reflexivity|]. split; [vm_compute; reflexivity|].
    split; [reflexivity|]. split; [vm_compute; reflexivity|].
    rewrite Hout. discriminate.
  - split; [vm_compute; reflexivity|]. split; [exact Hout'|].
    rewrite Hout'. discriminate.
Qed.

(** C6, amended: take a request whose URI [decodeURI] accepts and in whose
    decoded form the base directory of the root file stands at the front
    or nowhere, and its normalised URI: the decoded URI without that
    prefix, without one leading [./] or [/], behind the root path.  When
    the normalised URI is a key of the asset map, the resolver sends no
    request to the network, and it returns the bytes stored at that key
    when the file can be opened and read to its end, and is rejected when
    it cannot.  When the normalised URI is not a key, the resolver issues
    one fetch, for the base directory of the root file followed by the URI
    as it was given: one request to the network, unless that URL is a live
    object URL, which is read from memory. *)
Theorem asset_resolution
  (host : Host) (uri rootFile rootPath decoded : string)
  (assetMap : gmap string File) (b : Browser) :
  decodeURI host uri = Some decoded ->
  String.prefix (extractUrlBase host rootFile) decoded = true
  \/ occurs (extractUrlBase host rootFile) decoded = false ->
  let baseURL := extractUrlBase host rootFile in
  let key := canonical_key baseURL rootPath decoded in
  let out := resolveExternalResource host uri rootFile rootPath assetMap b in
  (forall object,
      assetMap !! key = Some object ->
      requests (snd out) = requests b
      /\ (available object = true -> intact object = true ->
          fst out = Fulfilled (contents object))
      /\ (available object && intact object = false ->
          exists e, fst out = Rejected e))
  /\ (assetMap !! key = None ->
      out = (fetch host (baseURL ++ uri)%string
               >>= (fun response => arrayBuffer response)) b
      /\ (objectURLs b !! (baseURL ++ uri)%string = None ->
          requests (snd out) = requests b ++ [(baseURL ++ uri)%string]
          /\ fst out = match network host (baseURL ++ uri)%string with
                       | Fulfilled response => body response
                       | Rejected e => Rejected e
                       end)
      /\ (is_Some (objectURLs b !! (baseURL ++ uri)%string) ->
          requests (snd out) = requests b)).
Proof.
  intros Hdecoded Hbase baseURL key out.
  assert (Hkey : normalizeURL baseURL rootPath decoded = key)
    by now apply normalizeURL_canonical.
  split.
  - intros object Hhit. rewrite <- Hkey in Hhit. subst out baseURL.
    rewrite (resolve_hit host uri rootFile rootPath decoded assetMap b Hdecoded object Hhit).
    cbv zeta. split; [|split].
    + destruct (available object), (intact object); reflexivity.
    + intros Hav Hin. rewrite Hav, Hin. reflexivity.
    + intros Hfail. destruct (available object);
        [destruct (intact object); [discriminate|]|]; eexists; reflexivity.
  - intros Hmiss. rewrite <- Hkey in Hmiss.
    assert (Hout : out = (fetch host (baseURL ++ uri)%string
                            >>= (fun response => arrayBuffer response)) b).
    { subst out baseURL. unfold resolveExternalResource.
      rewrite Hdecoded, Hmiss. unfold and_then.
      destruct (fetch host _ b) as [[response|e] b1]; [|reflexivity].
      destruct (arrayBuffer response b1) as [[buffer|e] b2]; reflexivity. }
    split; [exact Hout|]. split.
    + intros Hurl. subst out baseURL.
      rewrite (resolve_miss host uri rootFile rootPath decoded assetMap b Hdecoded Hmiss Hurl).
      split; reflexivity.
    + intros [f Hf]. rewrite Hout. unfold and_then, fetch, arrayBuffer.
      rewrite Hf. destruct (read_file f); reflexivity.
Qed.

Lemma asset_resolution_witness :
  let assetMap : gmap string File := {[ "models/tex.png" := texture ]} in
  (let out := resolveExternalResource sample_host "./tex.png" "blob:root" "models/"
                assetMap empty_browser in
   requests (snd out) = [] /\ fst out = Fulfilled (contents texture))
  /\ (let out := resolveExternalResource sample_host "other.bin" "blob:root" "models/"
                   assetMap empty_browser in
      requests (snd out) = ["./other.bin"]).
Proof.
  intros assetMap. split.
  - destruct (asset_resolution sample_host "./tex.png" "blob:root" "models/"
                "./tex.png" assetMap empty_browser eq_refl (or_introl eq_refl))
      as [Hhit _].
    destruct (Hhit texture) as (Hreq & Hbytes & _); [vm_compute; reflexivity|].
    split; [exact Hreq|]. apply Hbytes; reflexivity.
  - destruct (asset_resolution sample_host "other.bin" "blob:root" "models/"
                "other.bin" assetMap empty_browser eq_refl (or_intror eq_refl))
      as [_ Hmiss].
    destruct Hmiss as (_ & Hreq & _); [vm_compute; reflexivity|].
    destruct Hreq as [Hreq _]; [reflexivity|]. exact Hreq.
Defined.

(** ** Aggregation inside the normaliser *)


(** ** The viewer: lights and animation *)

Module ViewerFacts.
Import Viewer.
Section ViewerFacts.
Context {Num Clip : Type}.
Local Abbreviation State := (@Viewer.State Num Clip).
Local Abbreviation Light := (@Viewer.Light Num).

Lemma in_scene_app (calls more : list SceneCall) (present : list nat) :
  in_scene (calls ++ more) present = in_scene more (in_scene calls present).
Proof.
  revert present. induction calls as [|[light|light] calls IH]; intros present;
    [reflexivity| |]; cbn [app in_scene]; apply IH.
Qed.

Lemma remove_calls (ls : list Light) (calls : list SceneCall) :
  fold_left (fun calls light => calls ++ [SceneRemove (id light)]) ls calls
  = calls ++ map (fun light => SceneRemove (id light)) ls.
Proof.
  revert calls. induction ls as [|l ls IH]; intros calls; cbn [fold_left map].
  - now rewrite app_nil_r.
  - rewrite IH, <- app_assoc. reflexivity.
Qed.

Lemma in_scene_removed (ls : list Light) (present : list nat) :
  (forall x, In x present -> In x (map id ls)) ->
  in_scene (map (fun light => SceneRemove (id light)) ls) present = [].
Proof.
  revert present. induction ls as [|l ls IH]; intros present Hsub; cbn [map in_scene].
  - destruct present as [|x present]; [reflexivity|].
    destruct (Hsub x); now left.
  - apply IH. intros x Hx. apply List.filter_In in Hx. destruct Hx as [Hx Hne].
    destruct (Hsub x Hx) as [Heq|Hin]; [|assumption].
    cbn in Heq. subst x. now rewrite Nat.eqb_refl in Hne.
Qed.

Lemma updateLights_cases (v : State) :
  (addLightsFlag v = true /\ lights v = [] /\ updateLights v = addLights v)
  \/ (addLightsFlag v = false /\ lights v <> [] /\ updateLights v = removeLights v)
  \/ (addLightsFlag v = true /\ lights v <> [] /\ updateLights v = v)
  \/ (addLightsFlag v = false /\ lights v = [] /\ updateLights v = v).
Proof.
  unfold updateLights. destruct (addLightsFlag v), (lights v) as [|l ls]; cbn.
  - left. auto.
  - right; right; left. repeat split; auto; try discriminate.
  - right; right; right. auto.
  - right; left. repeat split; auto; try discriminate.
Qed.

(** X18: [updateLights] brings the lights in line with the switch and is
    done after one call: afterwards there are lights exactly when
    [state.addLights] is set, lights that were there are kept as they are,
    and a second call changes nothing. *)
Theorem updateLights_settles (v : State) :
  (lights (updateLights v) <> [] <-> addLightsFlag v = true)
  /\ (addLightsFlag v = true -> lights v <> [] -> updateLights v = v)
  /\ (addLightsFlag v = true -> lights v = [] ->
      map (fun l => (kind l, color l, position l)) (lights (updateLights v))
      = [(DirectionalLight, directColor v, Some (0, 0, 1)%Z);
         (DirectionalLight, directColor v, Some (0, 5, -5)%Z);
         (AmbientLight, ambientColor v, None)])
  /\ updateLights (updateLights v) = updateLights v.
Proof.
  destruct (updateLights_cases v)
    as [(Hf & Hl & ->)|[(Hf & Hl & ->)|[(Hf & Hl & Hu)|(Hf & Hl & Hu)]]].
  - repeat split; try tauto.
    + unfold addLights. cbn [lights]. rewrite Hl. discriminate.
    + intros _ _. unfold addLights. cbn [lights]. now rewrite Hl.
    + assert (Hlen : length (lights (addLights v)) = 3)
        by (unfold addLights; cbn [lights]; rewrite Hl; reflexivity).
      unfold updateLights. rewrite Hlen.
      change (addLightsFlag (addLights v)) with (addLightsFlag v).
      rewrite Hf. reflexivity.
  - repeat split; try congruence.
    + intros H. cbn in H. congruence.
    + unfold updateLights. cbn [removeLights addLightsFlag lights]. now rewrite Hf.
  - rewrite !Hu. repeat split; try tauto; try congruence.
  - rewrite !Hu. repeat split; try tauto; try congruence.
Qed.

Lemma with_light_lights i (f : Light -> Light) (v : State) :
  (forall l, id (f l) = id l) ->
  map id (lights (state_of (with_light i f v))) = map id (lights v)
  /\ length (lights (state_of (with_light i f v))) = length (lights v)
  /\ scene (state_of (with_light i f v)) = scene v
  /\ created (state_of (with_light i f v)) = created v
  /\ mixer (state_of (with_light i f v)) = mixer v
  /\ clips (state_of (with_light i f v)) = clips v.
Proof.
  intros Hid. unfold with_light.
  destruct (nth_error (lights v) i) as [found|];
    cbn [state_of lights scene created mixer clips]; [|repeat split].
  repeat split; [|apply length_alter].
  clear found. generalize (lights v). clear v. intros ls. revert i.
  induction ls as [|l ls IH]; intros [|i]; cbn; try reflexivity.
  - now rewrite Hid.
  - f_equal. apply IH.
Qed.

Lemma consistent_same (v v' : State) :
  map id (lights v') = map id (lights v) ->
  length (lights v') = length (lights v) ->
  scene v' = scene v -> created v' = created v ->
  mixer v' = mixer v -> clips v' = clips v ->
  consistent v -> consistent v'.
Proof.
  intros Hids Hlen Hscene Hcreated Hmixer Hclips (H3 & Hin & Hnd & Hlt & Hmix).
  unfold consistent. rewrite Hids, Hscene, Hcreated, Hmixer, Hclips.
  repeat split; auto.
  - destruct H3 as [H0|(l1 & l2 & l3 & H3)].
    + left. rewrite H0 in Hlen. now destruct (lights v').
    + right. rewrite H3 in Hlen.
      destruct (lights v') as [|a [|b [|c [|d ls]]]]; try discriminate. eauto.
  - intros l Hl. apply (in_map id) in Hl. rewrite Hids in Hl.
    apply in_map_iff in Hl. destruct Hl as (l' & <- & Hl'). now apply Hlt.
Qed.

Lemma consistent_with_light i (f : Light -> Light) (v : State) :
  (forall l, id (f l) = id l) ->
  consistent v -> consistent (state_of (with_light i f v)).
Proof.
  intros Hid Hv.
  destruct (with_light_lights i f v Hid) as (H1 & H2 & H3 & H4 & H5 & H6).
  now apply (consistent_same v).
Qed.

Lemma consistent_two_lights i j (f : Light -> Light) (v : State) :
  (forall l, id (f l) = id l) ->
  consistent v ->
  consistent (state_of (and_then (with_light i f v) (with_light j f))).
Proof.
  intros Hid Hv. pose proof (consistent_with_light i f v Hid Hv) as H1.
  destruct (with_light i f v) as [v1|v1]; cbn [and_then state_of] in *; [|exact H1].
  now apply consistent_with_light.
Qed.

Lemma consistent_updateLights (v : State) : consistent v -> consistent (updateLights v).
Proof.
  intros (H3 & Hin & Hnd & Hlt & Hmix).
  destruct (updateLights_cases v)
    as [(Hf & Hl & ->)|[(Hf & Hl & ->)|[(Hf & Hl & ->)|(Hf & Hl & ->)]]];
    try (repeat split; assumption).
  - unfold consistent, addLights. cbn [lights scene created mixer clips id].
    rewrite Hl in *. cbn [app map id] in *.
    rewrite in_scene_app, Hin. cbn [in_scene app].
    split; [|split; [|split; [|split]]]; auto.
    + right. eauto.
    + repeat (apply List.NoDup_cons; [cbn [In]; lia|]). apply List.NoDup_nil.
    + intros l [<-|[<-|[<-|[]]]]; cbn [id]; lia.
  - unfold consistent, removeLights. cbn [lights scene created mixer clips map].
    rewrite remove_calls, in_scene_app, Hin.
    split; [|split; [|split; [|split]]]; auto.
    + apply in_scene_removed. auto.
    + constructor.
    + intros l [].
Qed.

Lemma playAnimation_consistent (v : State) :
  consistent v ->
  exists v', playAnimation v = Returned v' /\ consistent v'
             /\ lights v' = lights v /\ clips v' = clips v.
Proof.
  intros Hv. pose proof Hv as (H3 & Hin & Hnd & Hlt & Hmix).
  unfold playAnimation. destruct (clips v) as [|c cs] eqn:Hclips.
  - exists v. repeat split; auto.
  - destruct (mixer v) as [calls|] eqn:Hmixer.
    + eexists. split; [reflexivity|]. split; [|split; reflexivity].
      unfold consistent. cbn [lights scene created mixer clips].
      repeat split; auto; try discriminate.
    + exfalso. apply Hmix; [discriminate|reflexivity].
Qed.

Lemma stopAnimation_consistent (v : State) :
  consistent v -> consistent (stopAnimation v).
Proof.
  intros Hv. unfold stopAnimation.
  destruct (mixer v) eqn:Hm; [|exact Hv].
  destruct Hv as (H3 & Hin & Hnd & Hlt & Hmix).
  unfold consistent. cbn [lights scene created mixer clips].
  repeat split; auto; try discriminate.
Qed.

Lemma setClips_consistent (newClips : list Clip) (v : State) :
  consistent v ->
  exists v', setClips newClips v = Returned v' /\ consistent v'
             /\ clips v' = newClips
             /\ (mixer v' <> None <-> newClips <> []).
Proof.
  intros Hv. apply stopAnimation_consistent in Hv.
  destruct Hv as (H3 & Hin & Hnd & Hlt & Hmix).
  unfold setClips. set (v1 := stopAnimation v) in *.
  destruct newClips as [|c cs].
  - eexists. split; [reflexivity|]. cbn [clips mixer].
    split; [|split; [reflexivity|tauto]].
    unfold consistent. cbn [lights scene created mixer clips].
    repeat split; auto.
  - cbn [playAnimationFlag]. destruct (playAnimationFlag v1).
    + unfold playAnimation. cbn [clips mixer].
      eexists. split; [reflexivity|]. cbn [clips mixer].
      split; [|split; [reflexivity|split; discriminate]].
      unfold consistent. cbn [lights scene created mixer clips].
      repeat split; auto; try discriminate.
    + eexists. split; [reflexivity|]. cbn [clips mixer].
      split; [|split; [reflexivity|split; discriminate]].
      unfold consistent. cbn [lights scene created mixer clips].
      repeat split; auto; try discriminate.
Qed.

Lemma consistent_flags (v : State) a p d m :
  consistent v ->
  consistent (mkState a p d m (lights v) (created v) (scene v) (mixer v) (clips v)).
Proof. intros Hv. now apply (consistent_same v). Qed.

Lemma consistent_handle (v : State) (e : Event) :
  consistent v -> consistent (handle v e).
Proof.
  intros Hv. destruct e as [c|newClips|]; cbn [handle].
  - destruct c as [on|on|hex|x|hex|x]; cbn [change].
    + destruct on.
      * destruct (playAnimation_consistent
                    (mkState (addLightsFlag v) true (directColor v) (ambientColor v)
                             (lights v) (created v) (scene v) (mixer v) (clips v)))
          as (v' & -> & Hv' & _); [now apply consistent_flags|exact Hv'].
      * cbn [state_of]. now apply stopAnimation_consistent, consistent_flags.
    + cbn [state_of]. now apply consistent_updateLights, consistent_flags.
    + apply consistent_two_lights; [reflexivity|now apply consistent_flags].
    + now apply consistent_two_lights.
    + apply consistent_with_light; [reflexivity|now apply consistent_flags].
    + now apply consistent_with_light.
  - destruct (setClips_consistent newClips v Hv) as (v' & -> & Hv' & _). exact Hv'.
  - now apply consistent_updateLights.
Qed.

Lemma consistent_initial : consistent (@initial Num Clip).
Proof.
  unfold consistent, initial. cbn [lights scene created mixer clips map in_scene].
  split; [auto|]. split; [reflexivity|]. split; [apply List.NoDup_nil|].
  split; [intros l []|]. intros H. now contradiction H.
Qed.

Lemma consistent_fold (events : list Event) (v : State) :
  consistent v -> consistent (fold_left handle events v).
Proof.
  revert v. induction events as [|e events IH]; intros v Hv; [exact Hv|].
  cbn [fold_left]. apply IH. now apply consistent_handle.
Qed.

(** X19: whatever is done with the panel and whatever clips are set, the
    viewer keeps its lights in order: it has no lights or the three of
    [addLights], its lights are the lights in the scene, each once, and it
    has a mixer whenever it has clips. *)
Theorem viewer_consistent (events : list Event) :
  consistent (fold_left handle events (@initial Num Clip)).
Proof.
  pose proof (consistent_fold events _ consistent_initial) as H.
  destruct H as (H3 & Hscene & Hnd & Hlt & Hmix).
  unfold consistent. repeat split; assumption.
Qed.

(** X20: the animation switch of the panel never throws and [setClips]
    always returns: in every state that the events lead to,
    [playAnimation] finds a mixer when there are clips to play, and after
    [setClips] there is a mixer exactly when clips were given. *)
Theorem animation_returns (events : list Event) (on : bool) (newClips : list Clip) :
  let v := fold_left handle events (@initial Num Clip) in
  (exists v', change (SetPlayAnimation on) v = Returned v')
  /\ (exists v', setClips newClips v = Returned v'
                 /\ clips v' = newClips
                 /\ (mixer v' <> None <-> newClips <> [])).
Proof.
  intros v. pose proof (consistent_fold events _ consistent_initial) as Hv.
  fold v in Hv. split.
  - cbn [change]. destruct on; [|eauto].
    destruct (playAnimation_consistent
                (mkState (addLightsFlag v) true (directColor v) (ambientColor v)
                         (lights v) (created v) (scene v) (mixer v) (clips v)))
      as (v' & Hplay & _); [now apply consistent_flags|eauto].
  - destruct (setClips_consistent newClips v Hv) as (v' & Hset & _ & Hclips & Hmixer).
    eauto.
Qed.

(** X21: the light controls need the lights.  In every state that the
    events lead to: when the lights are switched off, a change of the
    colour or the intensity of the direct or the ambient light throws and
    changes no light; when they are on, a change of the direct colour
    returns, gives the two directional lights that colour and leaves the
    ambient light alone. *)
Theorem light_controls (events : list Event) (hex : Z) (x : Num) :
  let v := fold_left handle events (@initial Num Clip) in
  (lights v = [] ->
   (exists v', change (SetDirectColor hex) v = Threw v' /\ lights v' = [])
   /\ (exists v', change (SetAmbientColor hex) v = Threw v' /\ lights v' = [])
   /\ change (SetDirectIntensity x) v = Threw v
   /\ change (SetAmbientIntensity x) v = Threw v)
  /\ (lights v <> [] ->
      exists l1 l2 l3 v',
        lights v = [l1; l2; l3]
        /\ change (SetDirectColor hex) v = Returned v'
        /\ lights v' = [setHex hex l1; setHex hex l2; l3]
        /\ directColor v' = hex
        /\ scene v' = scene v).
Proof.
  intros v. pose proof (consistent_fold events _ consistent_initial) as Hv.
  fold v in Hv. destruct Hv as (H3 & _). split.
  - intros Hl. cbn [change]. unfold onDirectColor, onAmbientColor, onDirectIntensity,
      onAmbientIntensity, with_light, and_then. cbn [lights]. rewrite Hl. cbn.
    repeat split; eauto.
  - intros Hl. destruct H3 as [H0|(l1 & l2 & l3 & H3)]; [contradiction|].
    exists l1, l2, l3. eexists. split; [exact H3|].
    cbn [change]. unfold onDirectColor, with_light, and_then. cbn [lights].
    rewrite H3. cbn. repeat split.
Qed.

End ViewerFacts.
End ViewerFacts.
